(** * Schema introspection and DDL synthesis: a shallow embedding

    This development models the catalog-introspection code of
    [aws_db.py] (class [aws_db_connection]) and of the
    [/api/table-schemas] endpoint of [app.py], and proves properties of
    the [CREATE TABLE] text and of the index / partition metadata that
    they compute.

    The catalog is a record of the relations the SQL text reads; every
    query of the source is a function over that record, and the Python
    code around the queries is a computation in a small state-and-error
    monad that logs the statements it sends over the connection. *)

From Stdlib Require Import Ascii.
From stdpp Require Import base list strings gmap sorting.

Open Scope Z_scope.

(** ** Text helpers *)

Definition nl : string := String "010"%char EmptyString.
Definition dquote : ascii := "034"%char.
Definition semicolon : ascii := ";"%char.

(** Python truthiness of a [str]. *)
Definition truthy (s : string) : bool :=
  match s with EmptyString => false | String _ _ => true end.

(** [s.rstrip(c)] for a one-character set. *)
Fixpoint rstrip (c : ascii) (s : string) : string :=
  match s with
  | EmptyString => EmptyString
  | String a s' =>
      match rstrip c s' with
      | EmptyString => if Ascii.eqb a c then EmptyString else String a EmptyString
      | String b r => String a (String b r)
      end
  end.

(** [n] copies of the character [c]. *)
Fixpoint repeat_char (c : ascii) (n : nat) : string :=
  match n with O => EmptyString | S n' => String c (repeat_char c n') end.

(** [sep.join(parts)] *)
Definition join (sep : string) (parts : list string) : string :=
  String.concat sep parts.

(** The last character of a text, if any. *)
Fixpoint last_char (s : string) : option ascii :=
  match s with
  | EmptyString => None
  | String a EmptyString => Some a
  | String _ s' => last_char s'
  end.

Definition ends_with (suffix s : string) : Prop := ∃ p, s = p +:+ suffix.

(** [psycopg2.sql.Identifier(name).as_string(conn)]: the identifier between
    double quotes, every embedded double quote doubled. *)
Fixpoint escape_ident (s : string) : string :=
  match s with
  | EmptyString => EmptyString
  | String a s' =>
      if Ascii.eqb a dquote then String dquote (String dquote (escape_ident s'))
      else String a (escape_ident s')
  end.

Definition quote_ident (name : string) : string :=
  String dquote (escape_ident name +:+ String dquote EmptyString).

(** ** ORDER BY

    A sort of the rows by a total preorder on them.  Ties are left in an
    order SQL does not specify; the examples below never have ties. *)

Definition order_by {A} (R : relation A) `{!RelDecision R} (rows : list A) : list A :=
  merge_sort R rows.

(** Byte order on one-character codes (the catalog's ["char"] type). *)
Definition char_code (a : ascii) : N := N_of_ascii a.

(** ** The catalog *)

Record pg_namespace_row := {
  ns_oid : Z;
  nspname : string }.

Record pg_class_row := {
  cls_oid : Z;
  relname : string;
  relnamespace : Z;
  relkind : ascii;
  (** [pg_get_expr(relpartbound, oid, true)], NULL when the relation is not a
      partition *)
  relpartbound : option string }.

Record pg_attribute_row := {
  attrelid : Z;
  attnum : Z;
  attname : string;
  (** [pg_catalog.format_type(atttypid, atttypmod)] *)
  att_format_type : string;
  attnotnull : bool;
  attisdropped : bool;
  (** [''] | ['a'] (ALWAYS) | ['d'] (BY DEFAULT) *)
  attidentity : string }.

Record pg_attrdef_row := {
  adrelid : Z;
  adnum : Z;
  (** [pg_get_expr(adbin, adrelid)] *)
  ad_expr : option string }.

Record pg_constraint_row := {
  con_oid : Z;
  conname : string;
  (** p=primary, u=unique, f=foreign, c=check, x=exclusion *)
  contype : ascii;
  conrelid : Z;
  (** [pg_get_constraintdef(oid, true)] *)
  con_def : string }.

Record pg_proc_row := {
  proname : string;
  pronamespace : Z }.

Record pg_partitioned_table_row := {
  partrelid : Z;
  partstrat : ascii;
  partattrs : list Z }.

Record pg_inherits_row := {
  inhrelid : Z;
  inhparent : Z }.

(** The view [pg_indexes]. *)
Record pg_indexes_row := {
  ix_schemaname : string;
  ix_tablename : string;
  ix_indexname : string;
  ix_indexdef : string }.

(** The view [information_schema.tables]. *)
Record is_tables_row := {
  ist_table_schema : string;
  ist_table_name : string;
  ist_table_type : string }.

Record Database := {
  pg_namespace : list pg_namespace_row;
  pg_class : list pg_class_row;
  pg_attribute : list pg_attribute_row;
  pg_attrdef : list pg_attrdef_row;
  pg_constraint : list pg_constraint_row;
  pg_proc : list pg_proc_row;
  pg_partitioned_table : list pg_partitioned_table_row;
  pg_inherits : list pg_inherits_row;
  pg_indexes : list pg_indexes_row;
  information_schema_tables : list is_tables_row;
  (** The engine's native [pg_get_tabledef(text)], when it has one: an error
      message, or the (nullable) text it returns. *)
  pg_get_tabledef : string → string + option string }.

(** ** The queries

    Each function below is one SQL statement of the source, read over the
    catalog relations: a [JOIN] is a nested iteration with its [ON] filter,
    [WHERE] a final test, [ORDER BY] a call of [order_by]. *)

Definition str_lt (s1 s2 : string) : Prop := String.le s1 s2 ∧ s1 ≠ s2.

(** [LEFT JOIN]: the matching rows, or one all-NULL row when there is none. *)
Definition left_join {A} (matches : list A) : list (option A) :=
  match matches with
  | [] => [None]
  | _ :: _ => Some <$> matches
  end.

(** [unnest(arr) WITH ORDINALITY]: the elements with their 1-based position. *)
Definition unnest_with_ordinality {A} (arr : list A) : list (A * Z) :=
  imap (λ i x, (x, Z.of_nat (S i))) arr.

(** *** [_redshift_pg_get_tabledef_available]:
    [SELECT COUNT( * ) FROM pg_proc p JOIN pg_namespace n
     ON n.oid = p.pronamespace WHERE p.proname = 'pg_get_tabledef'] *)
Definition sql_tabledef_count (db : Database) : list Z :=
  [ Z.of_nat (length (
      p ← pg_proc db;
      n ← filter (λ n, ns_oid n = pronamespace p) (pg_namespace db);
      if decide (proname p = "pg_get_tabledef") then [(p, n)] else [])) ].

(** *** [SELECT pg_get_tabledef(%s)] *)
Definition sql_tabledef (db : Database) (qualified : string)
  : string + list (option string) :=
  match pg_get_tabledef db qualified with
  | inl err => inl err
  | inr text => inr [text]
  end.

(** *** The base tables of a schema in [information_schema.tables] *)
Definition is_base_table (schema : string) (r : is_tables_row) : Prop :=
  ist_table_schema r = schema ∧ ist_table_type r = "BASE TABLE".

Global Instance is_base_table_dec schema r : Decision (is_base_table schema r).
Proof. unfold is_base_table. apply _. Defined.

(** [SELECT 1 FROM information_schema.tables
     WHERE table_schema=%s AND table_name=%s AND table_type='BASE TABLE'] *)
Definition sql_table_exists (db : Database) (schema table : string) : list Z :=
  (λ _, 1) <$>
    filter (λ r, ist_table_schema r = schema ∧ ist_table_name r = table
                 ∧ ist_table_type r = "BASE TABLE")
           (information_schema_tables db).

(** [SELECT table_name FROM information_schema.tables
     WHERE table_schema = %s AND table_type='BASE TABLE' ORDER BY table_name] *)
Definition sql_list_tables (db : Database) (schema : string) : list string :=
  order_by String.le
    (ist_table_name <$> filter (is_base_table schema) (information_schema_tables db)).

(** *** The columns of a table *)
Record ColumnRow := {
  col_attnum : Z;
  col_name : string;
  col_dtype : string;
  col_not_null : bool;
  col_default_expr : option string;
  col_identity_kind : string }.

Definition by_attnum (r1 r2 : ColumnRow) : Prop := col_attnum r1 ≤ col_attnum r2.

Global Instance by_attnum_dec : RelDecision by_attnum.
Proof. intros r1 r2. unfold by_attnum. apply _. Defined.

Definition sql_columns (db : Database) (schema table : string) : list ColumnRow :=
  order_by by_attnum (
    a ← pg_attribute db;
    c ← filter (λ c, cls_oid c = attrelid a) (pg_class db);
    n ← filter (λ n, ns_oid n = relnamespace c) (pg_namespace db);
    ad ← left_join (filter (λ ad, adrelid ad = attrelid a ∧ adnum ad = attnum a)
                           (pg_attrdef db));
    if decide ((relkind c = "r"%char ∨ relkind c = "p"%char)
               ∧ 0 < attnum a
               ∧ attisdropped a = false
               ∧ nspname n = schema
               ∧ relname c = table)
    then [ {| col_attnum := attnum a;
              col_name := attname a;
              col_dtype := att_format_type a;
              col_not_null := attnotnull a;
              col_default_expr := ad ≫= ad_expr;
              col_identity_kind := attidentity a |} ]
    else []).

(** *** The constraints of a table *)
Record ConstraintRow := {
  c_conname : string;
  c_contype : ascii;
  c_condef : string }.

(** [ORDER BY contype DESC, conname]: the one-byte type code descending,
    then the name ascending, bytewise (the catalog's [name] type compares
    bytewise). *)
Definition by_contype_desc_conname (r1 r2 : ConstraintRow) : Prop :=
  (char_code (c_contype r2) < char_code (c_contype r1))%N
  ∨ (c_contype r1 = c_contype r2 ∧ String.le (c_conname r1) (c_conname r2)).

Global Instance by_contype_desc_conname_dec : RelDecision by_contype_desc_conname.
Proof. intros r1 r2. unfold by_contype_desc_conname. apply _. Defined.

(** The scalar subquery [SELECT c.oid FROM pg_class c JOIN pg_namespace n
    ON n.oid=c.relnamespace WHERE n.nspname=%s AND c.relname=%s]. *)
Definition sql_relation_oid (db : Database) (schema table : string) : list Z :=
  c ← pg_class db;
  n ← filter (λ n, ns_oid n = relnamespace c) (pg_namespace db);
  if decide (nspname n = schema ∧ relname c = table) then [cls_oid c] else [].

(** The rows of [pg_constraint] that belong to one relation. *)
Definition constraints_of (db : Database) (relid : Z) : list ConstraintRow :=
  (λ k, {| c_conname := conname k; c_contype := contype k; c_condef := con_def k |})
    <$> filter (λ k, conrelid k = relid) (pg_constraint db).

(** [SELECT conname, contype, pg_get_constraintdef(oid, true) AS condef
     FROM pg_constraint WHERE conrelid = (...)
     ORDER BY contype DESC, conname] *)
Definition sql_constraints (db : Database) (schema table : string)
  : string + list ConstraintRow :=
  match sql_relation_oid db schema table with
  | [] => inr []
  | [relid] => inr (order_by by_contype_desc_conname (constraints_of db relid))
  | _ :: _ :: _ =>
      inl "more than one row returned by a subquery used as an expression"
  end.

(** *** The indexes of a schema:
    [SELECT tablename, indexname, indexdef FROM pg_indexes
     WHERE schemaname = %s ORDER BY tablename, indexname] *)
Definition IndexRow : Type := string * string * string.

(** [ORDER BY] on the first two columns of a three-column row. *)
Definition by_first_second {C} (r1 r2 : string * string * C) : Prop :=
  str_lt r1.1.1 r2.1.1 ∨ (r1.1.1 = r2.1.1 ∧ String.le r1.1.2 r2.1.2).

Global Instance by_first_second_dec {C} : RelDecision (@by_first_second C).
Proof. intros r1 r2. unfold by_first_second, str_lt. apply _. Defined.

Definition sql_indexes (db : Database) (schema : string) : list IndexRow :=
  order_by by_first_second (
    (λ r, (ix_tablename r, ix_indexname r, ix_indexdef r))
      <$> filter (λ r, ix_schemaname r = schema) (pg_indexes db)).

(** *** Partitioned parents: strategy and key columns *)

(** [CASE pt.partstrat WHEN 'l' THEN 'LIST' WHEN 'r' THEN 'RANGE'
     WHEN 'h' THEN 'HASH' END] *)
Definition strategy_name (partstrat : ascii) : option string :=
  if Ascii.eqb partstrat "l" then Some "LIST"
  else if Ascii.eqb partstrat "r" then Some "RANGE"
  else if Ascii.eqb partstrat "h" then Some "HASH"
  else None.

(** The common table expression [part]: (tablename, strategy, partattrs). *)
Definition sql_part (db : Database) (schema : string)
  : list (string * option string * list Z) :=
  pt ← pg_partitioned_table db;
  c ← filter (λ c, cls_oid c = partrelid pt) (pg_class db);
  n ← filter (λ n, ns_oid n = relnamespace c) (pg_namespace db);
  if decide (nspname n = schema)
  then [(relname c, strategy_name (partstrat pt), partattrs pt)] else [].

(** One row of the join below, before grouping: the group key, the
    attribute joined to one element of the partition key, and the position
    [ord] of that element in the key. *)
Record PartKeyRow := {
  pk_tablename : string;
  pk_strategy : option string;
  pk_attnum : Z;
  pk_attname : string;
  pk_ord : Z }.

Definition sql_part_join (db : Database) (schema : string) : list PartKeyRow :=
  p ← sql_part db schema;
  c ← filter (λ c, relname c = p.1.1) (pg_class db);
  n ← filter (λ n, ns_oid n = relnamespace c ∧ nspname n = schema) (pg_namespace db);
  pa ← unnest_with_ordinality p.2;
  a ← filter (λ a, attrelid a = cls_oid c ∧ attnum a = pa.1) (pg_attribute db);
  [ {| pk_tablename := p.1.1; pk_strategy := p.1.2;
       pk_attnum := attnum a; pk_attname := attname a; pk_ord := pa.2 |} ].

Definition by_pk_attnum (r1 r2 : PartKeyRow) : Prop := pk_attnum r1 ≤ pk_attnum r2.

Global Instance by_pk_attnum_dec : RelDecision by_pk_attnum.
Proof. intros r1 r2. unfold by_pk_attnum. apply _. Defined.

Definition ParentRow : Type := string * option string * list string.

Definition by_parent_tablename (r1 r2 : ParentRow) : Prop := String.le r1.1.1 r2.1.1.

Global Instance by_parent_tablename_dec : RelDecision by_parent_tablename.
Proof. intros r1 r2. unfold by_parent_tablename. apply _. Defined.

(** [SELECT p.tablename, p.strategy,
            array_agg(a.attname ORDER BY a.attnum) AS key_columns
     ... GROUP BY p.tablename, p.strategy ORDER BY p.tablename] *)
Definition sql_partitioned_parents (db : Database) (schema : string) : list ParentRow :=
  let joined := sql_part_join db schema in
  let groups := remove_dups ((λ r, (pk_tablename r, pk_strategy r)) <$> joined) in
  order_by by_parent_tablename (
    (λ g : string * option string,
       (g.1, g.2,
        pk_attname <$>
          order_by by_pk_attnum
            (filter (λ r, pk_tablename r = g.1 ∧ pk_strategy r = g.2) joined)))
      <$> groups).

(** *** Parent / child links with the child's bound:
    [SELECT parent.relname, child.relname,
            pg_get_expr(child.relpartbound, child.oid, true)
     FROM pg_inherits i JOIN pg_class child ... JOIN pg_class parent ...
     WHERE np.nspname = %s AND nc.nspname = %s
     ORDER BY parent.relname, child.relname] *)
Definition InheritRow : Type := string * string * option string.

Definition sql_inherits (db : Database) (schema : string) : list InheritRow :=
  order_by by_first_second (
    i ← pg_inherits db;
    child ← filter (λ c, cls_oid c = inhrelid i) (pg_class db);
    parent ← filter (λ c, cls_oid c = inhparent i) (pg_class db);
    np ← filter (λ n, ns_oid n = relnamespace parent) (pg_namespace db);
    nc ← filter (λ n, ns_oid n = relnamespace child) (pg_namespace db);
    if decide (nspname np = schema ∧ nspname nc = schema)
    then [(relname parent, relname child, relpartbound child)] else []).

(** ** The connection: statements, failures and the log of what was sent *)

(** The statements of the source, by the place that sends them. *)
Inductive Query :=
  | Q_tabledef_count
  | Q_tabledef (qualified : string)
  | Q_table_exists (schema table : string)
  | Q_columns (schema table : string)
  | Q_constraints (schema table : string)
  | Q_list_tables (schema : string)
  | Q_indexes (schema : string)
  | Q_partitioned_parents (schema : string)
  | Q_inherits (schema : string).

(** The exceptions that reach the callers: the [ValueError] raised by
    [table_schema] and the errors of the driver ([psycopg2.Error]). *)
Inductive exn :=
  | ValueError (msg : string)
  | DbError (msg : string).

(** [str(e)] *)
Definition exn_message (e : exn) : string :=
  match e with ValueError msg => msg | DbError msg => msg end.

(** A connection is the catalog it reads and, for the n-th statement sent
    over it, whether the transport fails there (connectivity loss,
    permission denial) and with which message. *)
Record Connection := {
  conn_db : Database;
  conn_fault : nat → option string }.

Definition Trace : Type := list Query.

(** Computations that send statements and may raise. *)
Definition M (A : Type) : Type := Trace → (exn + A) * Trace.

Definition ret {A} (a : A) : M A := λ tr, (inr a, tr).

Definition raise {A} (e : exn) : M A := λ tr, (inl e, tr).

Definition bind {A B} (c : M A) (k : A → M B) : M B :=
  λ tr, match c tr with
        | (inl e, tr') => (inl e, tr')
        | (inr a, tr') => k a tr'
        end.

Notation "'let!' x ':=' c 'in' k" := (bind c (λ x, k))
  (at level 10, x name, c at level 100, k at level 200).

(** [cursor.fetchone()] on the rows of a result. *)
Definition fetchone {A} (rows : list A) : option A := head rows.

(** [bounds or ''] *)
Definition or_empty (text : option string) : string := default EmptyString text.

(** ** [aws_db.py]: class [aws_db_connection] *)

(** The identity or default part of a column definition. *)
Definition col_identity_or_default (r : ColumnRow) : list string :=
  if decide (col_identity_kind r = "a" ∨ col_identity_kind r = "d") then
    [ if decide (col_identity_kind r = "a")
      then "GENERATED ALWAYS AS IDENTITY"
      else "GENERATED BY DEFAULT AS IDENTITY" ]
  else
    match col_default_expr r with
    | Some default_expr =>
        if truthy default_expr then ["DEFAULT " +:+ default_expr] else []
    | None => []
    end.

(** The [parts] of one column: name, type, identity or default, nullability. *)
Definition col_parts (r : ColumnRow) : list string :=
  [quote_ident (col_name r); col_dtype r]
  ++ col_identity_or_default r
  ++ (if col_not_null r then ["NOT NULL"] else []).

Definition col_line (r : ColumnRow) : string := join " " (col_parts r).

Definition constraint_line (r : ConstraintRow) : string :=
  "CONSTRAINT " +:+ quote_ident (c_conname r) +:+ " " +:+ c_condef r.

Definition create_stmt (schema table_name : string) (col_lines : list string) : string :=
  "CREATE TABLE " +:+ quote_ident schema +:+ "." +:+ quote_ident table_name
  +:+ " (" +:+ nl +:+ "  "
  +:+ join ("," +:+ nl +:+ "  ") col_lines
  +:+ nl +:+ ");".

Section aws_db_connection.
Context (conn : Connection).

(** [cur.execute(query, params)] followed by the fetch: the statement is
    sent (and logged); it raises when the transport fails there or when the
    engine rejects it, and yields the rows otherwise. *)
Definition execute {A} (q : Query) (answer : string + A) : M A :=
  λ tr,
    let tr' := tr ++ [q] in
    match conn_fault conn (length tr) with
    | Some msg => (inl (DbError msg), tr')
    | None =>
        match answer with
        | inl msg => (inl (DbError msg), tr')
        | inr rows => (inr rows, tr')
        end
    end.

Definition list_tables (schema : string) : M (list string) :=
  let! rows := execute (Q_list_tables schema) (inr (sql_list_tables (conn_db conn) schema)) in
  ret rows.

(** Detect if Redshift-style [pg_get_tabledef(text)] exists. *)
Definition _redshift_pg_get_tabledef_available : M bool :=
  let! rows := execute Q_tabledef_count (inr (sql_tabledef_count (conn_db conn))) in
  ret (match fetchone rows with
       | Some count => bool_decide (0 < count)
       | None => false
       end).

(** The Redshift shortcut of [table_schema]: the text of the native dump
    with its trailing semicolons replaced by one, when the function exists
    and returns something. *)
Definition native_tabledef (table_name schema : string) : M (option string) :=
  let! available := _redshift_pg_get_tabledef_available in
  if available then
    let qualified := schema +:+ "." +:+ table_name in
    let! rows := execute (Q_tabledef qualified) (sql_tabledef (conn_db conn) qualified) in
    ret (match fetchone rows with
         | Some (Some text) =>
             if truthy text then Some (rstrip semicolon text +:+ ";") else None
         | _ => None
         end)
  else ret None.

(** The reconstruction of [table_schema]: existence check, columns,
    constraints, and the statement composed from them. *)
Definition reconstruct (table_name schema : string) : M string :=
  let! exists_ := execute (Q_table_exists schema table_name)
                          (inr (sql_table_exists (conn_db conn) schema table_name)) in
  match fetchone exists_ with
  | None =>
      raise (ValueError ("Table " +:+ schema +:+ "." +:+ table_name
                         +:+ " does not exist."))
  | Some _ =>
      let! cols := execute (Q_columns schema table_name)
                           (inr (sql_columns (conn_db conn) schema table_name)) in
      let! constraints := execute (Q_constraints schema table_name)
                                  (sql_constraints (conn_db conn) schema table_name) in
      ret (create_stmt schema table_name
             ((col_line <$> cols) ++ (constraint_line <$> constraints)))
  end.

(** Return a CREATE TABLE statement for one table. *)
Definition table_schema (table_name schema : string) : M string :=
  let! native := native_tabledef table_name schema in
  match native with
  | Some ddl => ret ddl
  | None => reconstruct table_name schema
  end.

(** The dict comprehension [{t: self.table_schema(t, schema=schema) for t in tables}]. *)
Fixpoint table_schema_dict (schema : string) (tables : list string)
    (acc : gmap string string) : M (gmap string string) :=
  match tables with
  | [] => ret acc
  | t :: rest =>
      let! ddl := table_schema t schema in
      table_schema_dict schema rest (<[t := ddl]> acc)
  end.

(** Return a mapping of table_name -> CREATE TABLE statement for all tables
    in [schema]. *)
Definition list_table_schemas (schema : string) : M (gmap string string) :=
  let! tables := list_tables schema in
  table_schema_dict schema tables ∅.

End aws_db_connection.

(** ** [app.py]: the endpoint [/api/table-schemas] *)

(** [{"name": indexname, "def": indexdef}] *)
Record IndexEntry := {
  ie_name : string;
  ie_def : string }.

(** [{"name": child, "bounds": bounds or ''}] *)
Record Child := {
  ch_name : string;
  ch_bounds : string }.

(** The keys a table has as a parent; they are always set together, with
    ["is_partitioned": True]. *)
Record ParentPart := {
  pp_strategy : option string;
  pp_key_columns : list string;
  pp_children : list Child }.

(** The keys a table has as a child; they are always set together, with
    ["is_partition": True]. *)
Record ChildPart := {
  cp_parent : string;
  cp_bounds : string }.

(** The value of [partitions[t]]: a dict that starts empty and receives the
    parent keys, the child keys, or both. *)
Record PartInfo := {
  as_parent : option ParentPart;
  as_child : option ChildPart }.

(** The empty dict. *)
Definition empty_part_info : PartInfo := {| as_parent := None; as_child := None |}.

Global Instance IndexEntry_eq_dec : EqDecision IndexEntry.
Proof. solve_decision. Defined.
Global Instance Child_eq_dec : EqDecision Child.
Proof. solve_decision. Defined.
Global Instance ParentPart_eq_dec : EqDecision ParentPart.
Proof. solve_decision. Defined.
Global Instance ChildPart_eq_dec : EqDecision ChildPart.
Proof. solve_decision. Defined.
Global Instance PartInfo_eq_dec : EqDecision PartInfo.
Proof. solve_decision. Defined.

(** A dict built by successive assignments [d[k] = v]. *)
Definition dict_of_items {V} (items : list (string * V)) : gmap string V :=
  foldl (λ d kv, <[kv.1 := kv.2]> d) ∅ items.

(** [sorted(mapping.items(), key=lambda kv: kv[0])] *)
Definition by_key {V} (kv1 kv2 : string * V) : Prop := String.le kv1.1 kv2.1.

Global Instance by_key_dec {V} : RelDecision (@by_key V).
Proof. intros kv1 kv2. unfold by_key. apply _. Defined.

Definition sorted_items {V} (mapping : gmap string V) : list (string * V) :=
  merge_sort by_key (map_to_list mapping).

(** The loop over the rows of [pg_indexes]. *)
Definition add_index (indexes : gmap string (list IndexEntry)) (row : IndexRow)
  : gmap string (list IndexEntry) :=
  let '(tablename, indexname, indexdef) := row in
  match indexes !! tablename with
  | Some entries =>
      <[tablename := entries ++ [{| ie_name := indexname; ie_def := indexdef |}]]> indexes
  | None => indexes
  end.

Definition fill_indexes (rows : list IndexRow) (indexes : gmap string (list IndexEntry))
  : gmap string (list IndexEntry) :=
  foldl add_index indexes rows.

(** The loop over the partitioned parents. *)
Definition add_parent (partitions : gmap string PartInfo) (row : ParentRow)
  : gmap string PartInfo :=
  let '(tablename, strategy, key_columns) := row in
  match partitions !! tablename with
  | Some info =>
      <[tablename := {| as_parent := Some {| pp_strategy := strategy;
                                             pp_key_columns := key_columns;
                                             pp_children := [] |};
                        as_child := as_child info |}]> partitions
  | None => partitions
  end.

Definition fill_parents (rows : list ParentRow) (partitions : gmap string PartInfo)
  : gmap string PartInfo :=
  foldl add_parent partitions rows.

(** The loop over the parent / child links: the child is appended to its
    parent's children, and the child's own entry is marked as a partition. *)
Definition link_parent (parent child : string) (bounds : option string)
    (partitions : gmap string PartInfo) : gmap string PartInfo :=
  match partitions !! parent with
  | Some info =>
      let pp := match as_parent info with
                | Some pp => pp
                | None => {| pp_strategy := None; pp_key_columns := []; pp_children := [] |}
                end in
      <[parent := {| as_parent :=
                       Some {| pp_strategy := pp_strategy pp;
                               pp_key_columns := pp_key_columns pp;
                               pp_children := pp_children pp
                                 ++ [{| ch_name := child; ch_bounds := or_empty bounds |}] |};
                     as_child := as_child info |}]> partitions
  | None => partitions
  end.

Definition link_child (parent child : string) (bounds : option string)
    (partitions : gmap string PartInfo) : gmap string PartInfo :=
  match partitions !! child with
  | Some info =>
      <[child := {| as_parent := as_parent info;
                    as_child := Some {| cp_parent := parent;
                                        cp_bounds := or_empty bounds |} |}]> partitions
  | None => partitions
  end.

Definition add_link (partitions : gmap string PartInfo) (row : InheritRow)
  : gmap string PartInfo :=
  let '(parent, child, bounds) := row in
  link_child parent child bounds (link_parent parent child bounds partitions).

Definition fill_children (rows : list InheritRow) (partitions : gmap string PartInfo)
  : gmap string PartInfo :=
  foldl add_link partitions rows.

(** The JSON body of a successful response. *)
Record Snapshot := {
  snap_schema : string;
  snap_tables : list string;
  snap_ddl : gmap string string;
  snap_indexes : gmap string (list IndexEntry);
  snap_partitions : gmap string PartInfo }.

Inductive Response :=
  | Ok200 (body : Snapshot)
  | Err400 (error : string).

Section app.
Context (conn : Connection).

(** The body of the [try] block. *)
Definition table_schemas_body (schema : string) : M Snapshot :=
  let! mapping := list_table_schemas conn schema in
  let ordered_items := sorted_items mapping in
  let table_names := ordered_items.*1 in
  let indexes := dict_of_items ((λ t, (t, [])) <$> table_names) in
  let partitions := dict_of_items ((λ t, (t, empty_part_info)) <$> table_names) in
  let! index_rows := execute conn (Q_indexes schema)
                       (inr (sql_indexes (conn_db conn) schema)) in
  let indexes := fill_indexes index_rows indexes in
  let! parent_rows := execute conn (Q_partitioned_parents schema)
                        (inr (sql_partitioned_parents (conn_db conn) schema)) in
  let partitions := fill_parents parent_rows partitions in
  let! rows := execute conn (Q_inherits schema)
                 (inr (sql_inherits (conn_db conn) schema)) in
  let partitions := fill_children rows partitions in
  ret {| snap_schema := schema;
         snap_tables := table_names;
         snap_ddl := dict_of_items ordered_items;
         snap_indexes := indexes;
         snap_partitions := partitions |}.

(** Returns all base tables in the given schema and their CREATE TABLE DDL,
    plus index and partition metadata; any exception becomes a 400 response
    carrying [str(e)]. *)
Definition api_table_schemas (schema : string) : Trace → Response * Trace :=
  λ tr, match table_schemas_body schema tr with
        | (inr body, tr') => (Ok200 body, tr')
        | (inl e, tr') => (Err400 (exn_message e), tr')
        end.

End app.

(** ** A concrete catalog

    The [users] table of the module's example, a table partitioned by
    [RANGE (logdate, city_id)] with two partitions, and a table without any
    index. *)

Definition public_oid : Z := 2200.

Definition demo_attribute (rel num : Z) (name type : string) (notnull : bool)
    (identity : string) : pg_attribute_row :=
  {| attrelid := rel; attnum := num; attname := name; att_format_type := type;
     attnotnull := notnull; attisdropped := false; attidentity := identity |}.

Definition demo_class (oid : Z) (name : string) (kind : ascii)
    (bound : option string) : pg_class_row :=
  {| cls_oid := oid; relname := name; relnamespace := public_oid;
     relkind := kind; relpartbound := bound |}.

Definition bound_2024 : string :=
  "FOR VALUES FROM ('2024-01-01', MINVALUE) TO ('2025-01-01', MINVALUE)".
Definition bound_2025 : string :=
  "FOR VALUES FROM ('2025-01-01', MINVALUE) TO ('2026-01-01', MINVALUE)".

Definition demo_db : Database := {|
  pg_namespace :=
    [ {| ns_oid := 11; nspname := "pg_catalog" |};
      {| ns_oid := public_oid; nspname := "public" |} ];
  pg_class :=
    [ demo_class 16384 "users" "r" None;
      demo_class 16400 "measurements" "p" None;
      demo_class 16410 "measurements_y2024" "r" (Some bound_2024);
      demo_class 16420 "measurements_y2025" "r" (Some bound_2025);
      demo_class 16430 "audit_log" "r" None ];
  pg_attribute :=
    [ demo_attribute 16384 1 "id" "bigint" true "d";
      demo_attribute 16384 2 "name" "character varying(100)" true EmptyString;
      demo_attribute 16384 3 "age" "integer" false EmptyString;
      demo_attribute 16384 4 "email" "text" false EmptyString;
      demo_attribute 16384 5 "created_at" "timestamp with time zone" false EmptyString;
      demo_attribute 16400 1 "city_id" "integer" true EmptyString;
      demo_attribute 16400 2 "logdate" "date" true EmptyString;
      demo_attribute 16410 1 "city_id" "integer" true EmptyString;
      demo_attribute 16410 2 "logdate" "date" true EmptyString;
      demo_attribute 16420 1 "city_id" "integer" true EmptyString;
      demo_attribute 16420 2 "logdate" "date" true EmptyString;
      demo_attribute 16430 1 "message" "text" false EmptyString ];
  pg_attrdef :=
    [ {| adrelid := 16384; adnum := 5; ad_expr := Some "now()" |} ];
  pg_constraint :=
    [ {| con_oid := 16390; conname := "age_check"; contype := "c";
         conrelid := 16384;
         con_def := "CHECK (age IS NULL OR age >= 0)" |};
      {| con_oid := 16391; conname := "users_pkey"; contype := "p";
         conrelid := 16384; con_def := "PRIMARY KEY (id)" |};
      {| con_oid := 16392; conname := "users_email_key"; contype := "u";
         conrelid := 16384; con_def := "UNIQUE (email)" |} ];
  pg_proc :=
    [ {| proname := "pg_get_constraintdef"; pronamespace := 11 |};
      {| proname := "pg_get_expr"; pronamespace := 11 |} ];
  pg_partitioned_table :=
    [ {| partrelid := 16400; partstrat := "r"; partattrs := [2; 1] |} ];
  pg_inherits :=
    [ {| inhrelid := 16410; inhparent := 16400 |};
      {| inhrelid := 16420; inhparent := 16400 |} ];
  pg_indexes :=
    [ {| ix_schemaname := "public"; ix_tablename := "users";
         ix_indexname := "users_pkey";
         ix_indexdef := "CREATE UNIQUE INDEX users_pkey ON public.users USING btree (id)" |};
      {| ix_schemaname := "public"; ix_tablename := "users";
         ix_indexname := "users_email_key";
         ix_indexdef := "CREATE UNIQUE INDEX users_email_key ON public.users USING btree (email)" |} ];
  information_schema_tables :=
    (λ name, {| ist_table_schema := "public"; ist_table_name := name;
                ist_table_type := "BASE TABLE" |})
      <$> ["users"; "measurements"; "measurements_y2024"; "measurements_y2025";
           "audit_log"];
  pg_get_tabledef := λ _, inl "function pg_get_tabledef(unknown) does not exist"
|}.

(** A connection on which no statement fails in transit. *)
Definition demo_conn : Connection :=
  {| conn_db := demo_db; conn_fault := λ _, None |}.

(** The same catalog on an engine that has the native dump function. *)
Definition native_users_ddl : string :=
  "CREATE TABLE public.users (id bigint, name varchar(100));;".

Definition redshift_db : Database := {|
  pg_namespace := pg_namespace demo_db;
  pg_class := pg_class demo_db;
  pg_attribute := pg_attribute demo_db;
  pg_attrdef := pg_attrdef demo_db;
  pg_constraint := pg_constraint demo_db;
  pg_proc := {| proname := "pg_get_tabledef"; pronamespace := 11 |} :: pg_proc demo_db;
  pg_partitioned_table := pg_partitioned_table demo_db;
  pg_inherits := pg_inherits demo_db;
  pg_indexes := pg_indexes demo_db;
  information_schema_tables := information_schema_tables demo_db;
  pg_get_tabledef := λ qualified,
    if decide (qualified = "public.users") then inr (Some native_users_ddl)
    else inr None
|}.

Definition redshift_conn : Connection :=
  {| conn_db := redshift_db; conn_fault := λ _, None |}.

(** The snapshot of the [public] schema of the concrete catalog. *)
Definition demo_snapshot : Snapshot :=
  match (api_table_schemas demo_conn "public" []).1 with
  | Ok200 body => body
  | Err400 _ =>
      {| snap_schema := "public"; snap_tables := []; snap_ddl := ∅;
         snap_indexes := ∅; snap_partitions := ∅ |}
  end.

Definition demo_trace : Trace := (api_table_schemas demo_conn "public" []).2.

(** ** The vocabulary of the properties

    Predicates and reference definitions that the statements below use, and
    the inputs of the examples. *)



(** A catalog row that reports both an identity and a default expression. *)
Definition identity_with_default : ColumnRow :=
  {| col_attnum := 1; col_name := "id"; col_dtype := "bigint";
     col_not_null := true;
     col_default_expr := Some "nextval('users_id_seq'::regclass)";
     col_identity_kind := "a" |}.

(** A connection that is lost when the sixth statement is sent: the probe
    for the second table. *)
Definition lossy_conn : Connection :=
  {| conn_db := demo_db;
     conn_fault := λ n, if decide (n = 5%nat)
                        then Some "server closed the connection unexpectedly"
                        else None |}.

(** The claim as the specification words it: a primary-key constraint is
    listed before every constraint of another kind. *)
Definition primary_key_listed_first (constraints : list ConstraintRow) : Prop :=
  ∀ i j a b,
    constraints !! i = Some a → constraints !! j = Some b →
    c_contype a = "p"%char → c_contype b ≠ "p"%char → (i < j)%nat.

(** The order of the partition key: by the position [ord]. *)
Definition by_pk_ord (r1 r2 : PartKeyRow) : Prop := pk_ord r1 ≤ pk_ord r2.

Global Instance by_pk_ord_dec : RelDecision by_pk_ord.
Proof. intros r1 r2. unfold by_pk_ord. apply _. Defined.

(** The key columns as the specification words them: ordered by the
    position of each column within the partition key. *)
Definition key_columns_by_key_position (db : Database) (schema tablename : string)
  : list string :=
  pk_attname <$>
    order_by by_pk_ord (filter (λ r, pk_tablename r = tablename) (sql_part_join db schema)).

(** The dict appended for one row of [pg_indexes]. *)
Definition index_entry (r : IndexRow) : IndexEntry :=
  {| ie_name := r.1.2; ie_def := r.2 |}.

(** The entries of one table, in the order of the rows. *)
Definition index_entries (t : string) (rows : list IndexRow) : list IndexEntry :=
  index_entry <$> filter (λ r, r.1.1 = t) rows.

(** The order of the entries of one table: by index name. *)
Definition by_index_name (e1 e2 : IndexEntry) : Prop :=
  String.le (ie_name e1) (ie_name e2).

(** What the loop over the partitioned parents does to the entry of [t]. *)
Definition declare_parent (t : string) (info : PartInfo) (row : ParentRow) : PartInfo :=
  if decide (row.1.1 = t)
  then {| as_parent := Some {| pp_strategy := row.1.2; pp_key_columns := row.2;
                               pp_children := [] |};
          as_child := as_child info |}
  else info.

(** The parent keys of an entry, or the ones it receives when it is first
    seen as a parent through a link. *)
Definition open_parent (info : PartInfo) : ParentPart :=
  default {| pp_strategy := None; pp_key_columns := []; pp_children := [] |}
          (as_parent info).

(** What the loop over the links does to the entry of [t]. *)
Definition link (t : string) (info : PartInfo) (row : InheritRow) : PartInfo :=
  let info1 :=
    if decide (row.1.1 = t)
    then {| as_parent :=
              Some {| pp_strategy := pp_strategy (open_parent info);
                      pp_key_columns := pp_key_columns (open_parent info);
                      pp_children := pp_children (open_parent info)
                        ++ [{| ch_name := row.1.2; ch_bounds := or_empty row.2 |}] |};
            as_child := as_child info |}
    else info in
  if decide (row.1.2 = t)
  then {| as_parent := as_parent info1;
          as_child := Some {| cp_parent := row.1.1; cp_bounds := or_empty row.2 |} |}
  else info1.

(** The children that the links give to [t]. *)
Definition children_of (t : string) (rows : list InheritRow) : list Child :=
  (λ r, {| ch_name := r.1.2; ch_bounds := or_empty r.2 |})
    <$> filter (λ r : InheritRow, r.1.1 = t) rows.

(** The claim as the specification words it: the partition mapping has no
    entry for the table. *)
Definition no_partition_entry (snap : Snapshot) (t : string) : Prop :=
  snap_partitions snap !! t = None.

(** ** More vocabulary: reconstruction and the metadata statements *)

(** The statement that the reconstruction composes for a table, when the
    constraint query goes through. *)
Definition reconstructed_ddl (db : Database) (schema table : string) : option string :=
  match sql_constraints db schema table with
  | inr constraints =>
      Some (create_stmt schema table
              ((col_line <$> sql_columns db schema table)
               ++ (constraint_line <$> constraints)))
  | inl _ => None
  end.

(** The statements that [table_schema] sends for one table when the engine
    has no native dump function. *)
Definition reconstruction_queries (schema table : string) : list Query :=
  [Q_tabledef_count; Q_table_exists schema table; Q_columns schema table;
   Q_constraints schema table].

(** The three statements that the endpoint sends after the DDL texts. *)
Definition metadata_queries (schema : string) : list Query :=
  [Q_indexes schema; Q_partitioned_parents schema; Q_inherits schema].

(** A catalog in which no function is called [pg_get_tabledef]. *)
Definition no_native_dump (db : Database) : Prop :=
  ∀ p, p ∈ pg_proc db → proname p ≠ "pg_get_tabledef".

(** A column that the column query keeps: an attribute with a positive
    number that is not dropped, of a table or partitioned table with that
    name in that schema. *)
Definition live_column (db : Database) (schema table : string)
    (a : pg_attribute_row) : Prop :=
  a ∈ pg_attribute db ∧ 0 < attnum a ∧ attisdropped a = false
  ∧ ∃ c n, c ∈ pg_class db ∧ cls_oid c = attrelid a
           ∧ n ∈ pg_namespace db ∧ ns_oid n = relnamespace c
           ∧ (relkind c = "r"%char ∨ relkind c = "p"%char)
           ∧ nspname n = schema ∧ relname c = table.

(** The row of the column query for an attribute and the default joined to
    it, if any. *)
Definition column_of (a : pg_attribute_row) (ad : option pg_attrdef_row) : ColumnRow :=
  {| col_attnum := attnum a;
     col_name := attname a;
     col_dtype := att_format_type a;
     col_not_null := attnotnull a;
     col_default_expr := ad ≫= ad_expr;
     col_identity_kind := attidentity a |}.

(** A connection that is lost when the second metadata statement of the
    snapshot of [public] is sent (statement number 22, counting from 0). *)
Definition metadata_lossy_conn : Connection :=
  {| conn_db := demo_db;
     conn_fault := λ n, if decide (n = 22%nat)
                        then Some "SSL connection has been closed unexpectedly"
                        else None |}.

(** An engine whose native dump function rejects every call. *)
Definition broken_native_db : Database := {|
  pg_namespace := pg_namespace redshift_db;
  pg_class := pg_class redshift_db;
  pg_attribute := pg_attribute redshift_db;
  pg_attrdef := pg_attrdef redshift_db;
  pg_constraint := pg_constraint redshift_db;
  pg_proc := pg_proc redshift_db;
  pg_partitioned_table := pg_partitioned_table redshift_db;
  pg_inherits := pg_inherits redshift_db;
  pg_indexes := pg_indexes redshift_db;
  information_schema_tables := information_schema_tables redshift_db;
  pg_get_tabledef := λ _, inl "permission denied for function pg_get_tabledef"
|}.

Definition broken_native_conn : Connection :=
  {| conn_db := broken_native_db; conn_fault := λ _, None |}.

(** A catalog with plain inheritance and no declared partitioning:
    [capitals] inherits from [cities]. *)
Definition inherit_db : Database := {|
  pg_namespace := [ {| ns_oid := public_oid; nspname := "public" |} ];
  pg_class :=
    [ demo_class 16500 "cities" "r" None;
      demo_class 16510 "capitals" "r" None ];
  pg_attribute :=
    [ demo_attribute 16500 1 "name" "text" false EmptyString;
      demo_attribute 16510 1 "name" "text" false EmptyString;
      demo_attribute 16510 2 "state" "character(2)" false EmptyString ];
  pg_attrdef := [];
  pg_constraint := [];
  pg_proc := [];
  pg_partitioned_table := [];
  pg_inherits := [ {| inhrelid := 16510; inhparent := 16500 |} ];
  pg_indexes := [];
  information_schema_tables :=
    (λ name, {| ist_table_schema := "public"; ist_table_name := name;
                ist_table_type := "BASE TABLE" |})
      <$> ["cities"; "capitals"];
  pg_get_tabledef := λ _, inl "function pg_get_tabledef(unknown) does not exist"
|}.

Definition inherit_conn : Connection :=
  {| conn_db := inherit_db; conn_fault := λ _, None |}.

Definition inherit_snapshot : Snapshot :=
  match (api_table_schemas inherit_conn "public" []).1 with
  | Ok200 body => body
  | Err400 _ =>
      {| snap_schema := "public"; snap_tables := []; snap_ddl := ∅;
         snap_indexes := ∅; snap_partitions := ∅ |}
  end.

Definition inherit_trace : Trace := (api_table_schemas inherit_conn "public" []).2.

(** ** [app.py]: the cells of [/api/sql] *)

(** A Python [str] as the sequence of its code points; [len] counts them. *)
Definition unicode : Type := list N.

(** ["…"], U+2026. *)
Definition ellipsis : N := 8230%N.

Section api_sql.
(** The values of the result cells, and [str(v)] on them. *)
Context {Value : Type} (str : Value → unicode).

(** The text of a cell: [""] for [None], [str(v)] otherwise. *)
Definition cell_text (v : option Value) : unicode :=
  match v with
  | None => []
  | Some x => str x
  end.

(** [clip]: the text of the cell, cut after 2000 code points and then
    marked with an ellipsis. *)
Definition clip (v : option Value) : unicode :=
  let s := cell_text v in
  if decide (length s ≤ 2000)%nat then s else take 2000 s ++ [ellipsis].

(** [[[clip(c) for c in r] for r in rows]] *)
Definition clip_rows (rows : list (list (option Value))) : list (list unicode) :=
  (λ r : list (option Value), clip <$> r) <$> rows.

End api_sql.

(** ** [lambda_handler.py]: the headers of the response *)

Section lambda_headers.
(** [str.lower] *)
Context (lower : string → string).

(** [cookies_out]: the values of the [Set-Cookie] headers, in order. *)
Definition cookies_out (response_headers : list (string * string)) : list string :=
  snd <$> filter (λ kv, lower kv.1 = "set-cookie") response_headers.

(** One turn of the loop that builds [headers_out]. *)
Definition merge_header (headers_out : gmap string string) (kv : string * string)
  : gmap string string :=
  let '(k, v) := kv in
  if decide (lower k = "set-cookie") then headers_out
  else
    match headers_out !! k with
    | Some merged => <[k := merged +:+ "," +:+ v]> headers_out
    | None => <[k := v]> headers_out
    end.

(** [headers_out]: duplicates merged with a comma, [Set-Cookie] left out. *)
Definition headers_out (response_headers : list (string * string))
  : gmap string string :=
  foldl merge_header ∅ response_headers.

(** [_first_header]: case-insensitive single-value fetch, over the items of
    the headers dict in their order. *)
Fixpoint _first_header {V} (headers : list (string * V)) (name : string) (default : V) : V :=
  match headers with
  | [] => default
  | (k, v) :: rest =>
      if decide (lower k = lower name) then v else _first_header rest name default
  end.

End lambda_headers.

(** The values that the response gives to the header [k], in order. *)
Definition header_values (k : string) (response_headers : list (string * string))
  : list string :=
  snd <$> filter (λ kv, kv.1 = k) response_headers.

(** ASCII lower case, which is [str.lower] on ASCII text. *)
Definition ascii_lower (a : ascii) : ascii :=
  let n := nat_of_ascii a in
  if decide (65 ≤ n ≤ 90)%nat then ascii_of_nat (n + 32) else a.

Fixpoint lower_ascii (s : string) : string :=
  match s with
  | EmptyString => EmptyString
  | String a s' => String (ascii_lower a) (lower_ascii s')
  end.

(** ** [aws_db.py]: connections and databases

    The server is the set of its databases, the number of sessions that are
    open on it, and how it answers a connection attempt; the object is the
    class instance with its [conn] attribute.  The class is taken with its
    default [autocommit=True], under which [CREATE DATABASE] is accepted. *)

(** A row of [pg_database]. *)
Record pg_database_row := {
  datname : string;
  datistemplate : bool }.

Record Server := {
  srv_databases : list pg_database_row;
  (** When set, every connection attempt is refused with this message
      (server down, authentication failure, ...). *)
  srv_refusal : option string;
  (** The message of the refusal to connect to a database that is missing. *)
  srv_missing : string → string;
  (** The sessions that are open. *)
  srv_sessions : nat }.

(** The errors of the driver that these methods tell apart:
    [psycopg2.OperationalError] and the others. *)
Inductive pg_error :=
  | OperationalError (msg : string)
  | ProgrammingError (msg : string).


(** A connection object: the database it was opened on, and whether
    [close()] was called on it. *)
Record Handle := {
  h_dbname : string;
  h_closed : bool }.

Definition set_sessions (n : nat) (srv : Server) : Server :=
  {| srv_databases := srv_databases srv; srv_refusal := srv_refusal srv;
     srv_missing := srv_missing srv; srv_sessions := n |}.

Definition add_database (dbname : string) (srv : Server) : Server :=
  {| srv_databases := srv_databases srv ++ [{| datname := dbname; datistemplate := false |}];
     srv_refusal := srv_refusal srv;
     srv_missing := srv_missing srv; srv_sessions := srv_sessions srv |}.

(** The names of all the databases of the server. *)
Definition database_names (srv : Server) : list string := datname <$> srv_databases srv.

(** Computations on the server that may raise. *)
Definition DB (A : Type) : Type := Server → (pg_error + A) * Server.


Definition db_bind {A B} (c : DB A) (k : A → DB B) : DB B :=
  λ srv, match c srv with
         | (inl e, srv') => (inl e, srv')
         | (inr a, srv') => k a srv'
         end.

Notation "'let*' x ':=' c 'in' k" := (db_bind c (λ x, k))
  (at level 10, x name, c at level 100, k at level 200).

(** [try: body finally: cleanup], for a cleanup that does not raise. *)
Definition db_finally {A} (body : DB A) (cleanup : Server → Server) : DB A :=
  λ srv, let '(r, srv') := body srv in (r, cleanup srv').

(** [needle in text] *)
Definition contains (needle text : string) : bool :=
  match String.index 0 needle text with
  | Some _ => true
  | None => false
  end.

(** [psycopg2.connect(dbname=...)]: refused when the server refuses
    everything or the database is missing, a new open session otherwise. *)
Definition psycopg2_connect (dbname : string) : DB Handle :=
  λ srv,
    match srv_refusal srv with
    | Some msg => (inl (OperationalError msg), srv)
    | None =>
        if decide (dbname ∈ database_names srv)
        then (inr {| h_dbname := dbname; h_closed := false |},
              set_sessions (S (srv_sessions srv)) srv)
        else (inl (OperationalError (srv_missing srv dbname)), srv)
    end.

(** [conn.close()]: ends the session; does nothing on a closed connection. *)
Definition handle_close (h : Handle) (srv : Server) : Server :=
  if h_closed h then srv else set_sessions (pred (srv_sessions srv)) srv.


(** [CREATE DATABASE name]: rejected when a database has that name. *)
Definition sql_create_database (dbname : string) : DB () :=
  λ srv,
    if decide (dbname ∈ database_names srv)
    then (inl (ProgrammingError
                 ("database " +:+ quote_ident dbname +:+ " already exists")), srv)
    else (inr (), add_database dbname srv).

(** [SELECT datname FROM pg_database WHERE datistemplate = false
     ORDER BY datname] *)
Definition sql_list_databases (srv : Server) : list string :=
  order_by String.le
    (datname <$> filter (λ r, datistemplate r = false) (srv_databases srv)).

(** The instance of [aws_db_connection]. *)
Record aws_db := {
  admin_dbname : string;
  conn : option Handle }.

Definition _connect (dbname : string) : DB Handle := psycopg2_connect dbname.

Definition _create_database_internal (self : aws_db) (dbname : string) : DB () :=
  let* admin := _connect (admin_dbname self) in
  db_finally (sql_create_database dbname) (handle_close admin).

Definition _get_or_create_connection (self : aws_db) (dbname : string) : DB Handle :=
  λ srv,
    match _connect dbname srv with
    | (inl (OperationalError msg), srv') =>
        if contains "does not exist" msg then
          (let* _ := _create_database_internal self dbname in
           _connect dbname) srv'
        else (inl (OperationalError msg), srv')
    | other => other
    end.

Definition list_databases (self : aws_db) : DB (list string) :=
  let* admin := _connect (admin_dbname self) in
  db_finally (λ srv, (inr (sql_list_databases srv), srv)) (handle_close admin).




(** [aws_db_connection(dbname=..., admin_dbname=...)] *)
Definition new_connection (admin dbname : string) (srv : Server)
  : (pg_error + aws_db) * Server :=
  match _get_or_create_connection {| admin_dbname := admin; conn := None |} dbname srv with
  | (inr h, srv') => (inr {| admin_dbname := admin; conn := Some h |}, srv')
  | (inl e, srv') => (inl e, srv')
  end.

(** ** [app.py]: the database management endpoints *)





(** A server with the two template databases, [postgres] and one more. *)
Definition demo_server : Server := {|
  srv_databases :=
    [ {| datname := "template0"; datistemplate := true |};
      {| datname := "template1"; datistemplate := true |};
      {| datname := "postgres"; datistemplate := false |};
      {| datname := "my_app_db"; datistemplate := false |} ];
  srv_refusal := None;
  srv_missing := λ d, "FATAL:  database " +:+ quote_ident d +:+ " does not exist";
  srv_sessions := 0 |}.


Definition demo_object : aws_db :=
  {| admin_dbname := "postgres";
     conn := Some {| h_dbname := "postgres"; h_closed := false |} |}.

(** * Properties *)

(** ** Text *)

Lemma append_cons a s t : String a s +:+ t = String a (s +:+ t).
Proof. reflexivity. Qed.

Lemma append_nil_l s : EmptyString +:+ s = s.
Proof. reflexivity. Qed.

Lemma append_nil_r s : s +:+ EmptyString = s.
Proof. induction s as [|a s IH]; [done|]. by rewrite append_cons, IH. Qed.

Lemma append_assoc s t u : (s +:+ t) +:+ u = s +:+ (t +:+ u).
Proof. induction s as [|a s IH]; [done|]. by rewrite !append_cons, IH. Qed.

Lemma last_char_cons a s :
  last_char (String a s) = match s with EmptyString => Some a | _ => last_char s end.
Proof. by destruct s. Qed.

Lemma last_char_snoc s c : last_char (s +:+ String c EmptyString) = Some c.
Proof.
  induction s as [|a s IH]; [done|].
  rewrite append_cons, last_char_cons, IH.
  by destruct s.
Qed.

Lemma ends_with_last_char c s :
  ends_with (String c EmptyString) s ↔ last_char s = Some c.
Proof.
  split.
  - intros [p ->]. apply last_char_snoc.
  - induction s as [|a s IH]; [done|].
    rewrite last_char_cons. destruct s as [|b s].
    + intros [= ->]. by exists EmptyString.
    + intros [p Hp]%IH. exists (String a p). by rewrite append_cons, Hp.
Qed.

(** [rstrip] removes a run of the character at the end, and all of it. *)
Lemma rstrip_decompose c s : ∃ n, s = rstrip c s +:+ repeat_char c n.
Proof.
  induction s as [|a s [n IH]]; [by exists 0%nat|].
  simpl. destruct (rstrip c s) as [|b r] eqn:Hr.
  - destruct (Ascii.eqb_spec a c) as [->|_].
    + exists (S n). by rewrite append_nil_l in *; simpl; rewrite <-IH.
    + exists n. rewrite append_nil_l in IH. by rewrite append_cons, append_nil_l, <-IH.
  - exists n. by rewrite append_cons, <-IH.
Qed.

Lemma rstrip_last_char c s : last_char (rstrip c s) ≠ Some c.
Proof.
  induction s as [|a s IH]; [done|].
  simpl. destruct (rstrip c s) as [|b r] eqn:Hr.
  - destruct (Ascii.eqb_spec a c) as [->|Hne]; [done|]. simpl. congruence.
  - by rewrite last_char_cons.
Qed.

Lemma rstrip_id c s : last_char s ≠ Some c → rstrip c s = s.
Proof.
  induction s as [|a s IH]; [done|].
  rewrite last_char_cons. simpl. destruct s as [|b s].
  - simpl. intros Hne. destruct (Ascii.eqb_spec a c) as [->|_]; congruence.
  - intros Hs. by rewrite (IH Hs).
Qed.

(** ** Column fragments: identity takes precedence over the default *)







Example identity_with_default_line :
  col_line identity_with_default
  = quote_ident "id" +:+ " bigint GENERATED ALWAYS AS IDENTITY NOT NULL".
Proof. reflexivity. Qed.

(** ** Lists *)

Lemma filter_none {A} (P : A → Prop) `{!∀ x, Decision (P x)} (l : list A) :
  (∀ x, x ∈ l → ¬ P x) → filter P l = [].
Proof.
  induction l as [|x l IH]; [done|]. intros Hnone.
  rewrite filter_cons_False by (apply Hnone; left).
  apply IH. intros y Hy. apply Hnone. by right.
Qed.

(** ** Running computations *)

Section monad_facts.
Context {A B : Type}.
Implicit Types (c : M A) (k : A → M B).

Lemma bind_ok c k tr a tr1 : c tr = (inr a, tr1) → bind c k tr = k a tr1.
Proof. unfold bind. by intros ->. Qed.

Lemma bind_fail c k tr e tr1 : c tr = (inl e, tr1) → bind c k tr = (inl e, tr1).
Proof. unfold bind. by intros ->. Qed.

Lemma bind_inr c k tr b tr2 :
  bind c k tr = (inr b, tr2) →
  ∃ a tr1, c tr = (inr a, tr1) ∧ k a tr1 = (inr b, tr2).
Proof. unfold bind. destruct (c tr) as [[e|a] tr1]; [congruence|eauto]. Qed.

Lemma bind_inl c k tr e tr2 :
  bind c k tr = (inl e, tr2) →
  c tr = (inl e, tr2) ∨ ∃ a tr1, c tr = (inr a, tr1) ∧ k a tr1 = (inl e, tr2).
Proof.
  unfold bind. destruct (c tr) as [[e'|a] tr1]; [|eauto].
  intros [= -> ->]. by left.
Qed.

End monad_facts.

Lemma execute_ok {A} conn q (answer : string + A) rows tr :
  conn_fault conn (length tr) = None →
  answer = inr rows →
  execute conn q answer tr = (inr rows, tr ++ [q]).
Proof. unfold execute. by intros -> ->. Qed.

Lemma execute_inr {A} conn q (answer : string + A) rows tr tr' :
  execute conn q answer tr = (inr rows, tr') →
  conn_fault conn (length tr) = None ∧ answer = inr rows ∧ tr' = tr ++ [q].
Proof.
  unfold execute. destruct (conn_fault conn (length tr)); [done|].
  destruct answer; [done|]. by intros [= -> ->].
Qed.

Lemma execute_trace {A} conn q (answer : string + A) r tr tr' :
  execute conn q answer tr = (r, tr') → tr' = tr ++ [q].
Proof.
  unfold execute. destruct (conn_fault conn (length tr)); [by intros [= _ <-]|].
  by destruct answer; intros [= _ <-].
Qed.

(** The probe sends one statement; it reports support when that statement
    goes through and counts at least one function of that name. *)
Lemma probe_inr conn tr avail tr1 :
  _redshift_pg_get_tabledef_available conn tr = (inr avail, tr1) →
  conn_fault conn (length tr) = None ∧ tr1 = tr ++ [Q_tabledef_count].
Proof.
  unfold _redshift_pg_get_tabledef_available.
  intros (rows & tr0 & (? & _ & ->)%execute_inr & [= _ <-])%bind_inr. done.
Qed.

(** What the shortcut returns, by cases on what it sent. *)
Lemma native_tabledef_inr conn table schema tr native tr1 :
  native_tabledef conn table schema tr = (inr native, tr1) →
  (native = None ∧ tr1 = tr ++ [Q_tabledef_count])
  ∨ (tr1 = tr ++ [Q_tabledef_count; Q_tabledef (schema +:+ "." +:+ table)]
     ∧ ∃ value, pg_get_tabledef (conn_db conn) (schema +:+ "." +:+ table) = inr value
        ∧ native = match value with
                   | Some text =>
                       if truthy text then Some (rstrip semicolon text +:+ ";") else None
                   | None => None
                   end).
Proof.
  unfold native_tabledef.
  intros (avail & tr0 & Hprobe & Hrest)%bind_inr.
  apply probe_inr in Hprobe as [_ ->].
  destruct avail; [|left; by injection Hrest as <- <-].
  right. apply bind_inr in Hrest as (rows & tr2 & Hexec & Hret).
  apply execute_inr in Hexec as (_ & Hans & ->).
  unfold sql_tabledef in Hans.
  destruct (pg_get_tabledef _ _) as [err|value]; [done|].
  injection Hans as <-. injection Hret as <- <-.
  rewrite <-app_assoc. split; [done|]. exists value. by destruct value.
Qed.

Lemma reconstruct_inr conn table schema tr ddl tr1 :
  reconstruct conn table schema tr = (inr ddl, tr1) →
  ∃ constraints,
    sql_constraints (conn_db conn) schema table = inr constraints
    ∧ ddl = create_stmt schema table
              ((col_line <$> sql_columns (conn_db conn) schema table)
               ++ (constraint_line <$> constraints))
    ∧ tr1 = tr ++ [Q_table_exists schema table; Q_columns schema table;
                   Q_constraints schema table].
Proof.
  unfold reconstruct.
  intros (ex & tr0 & (_ & _ & ->)%execute_inr & Hrest)%bind_inr.
  destruct (fetchone ex); [|done].
  apply bind_inr in Hrest as (cols & tr2 & (_ & [= <-] & ->)%execute_inr & Hrest).
  apply bind_inr in Hrest as (cons & tr3 & (_ & Hcons & ->)%execute_inr & [= <- <-]).
  exists cons. by rewrite <-!app_assoc.
Qed.

Lemma table_schema_inr conn table schema tr ddl tr' :
  table_schema conn table schema tr = (inr ddl, tr') →
  (∃ tr1, native_tabledef conn table schema tr = (inr (Some ddl), tr1) ∧ tr' = tr1)
  ∨ (∃ tr1, native_tabledef conn table schema tr = (inr None, tr1)
            ∧ reconstruct conn table schema tr1 = (inr ddl, tr')).
Proof.
  unfold table_schema.
  intros ([native|] & tr1 & Hnative & Hrest)%bind_inr.
  - injection Hrest as <- <-. left. eauto.
  - right. eauto.
Qed.

(** ** The statement returned by [table_schema] *)

Lemma ends_with_refl s : ends_with s s.
Proof. by exists EmptyString. Qed.

Lemma ends_with_app suffix s t : ends_with suffix t → ends_with suffix (s +:+ t).
Proof. intros [p ->]. exists (s +:+ p). by rewrite append_assoc. Qed.

Lemma ends_with_trans a b s : ends_with b s → ends_with a b → ends_with a s.
Proof. intros [p ->] [q ->]. exists (p +:+ q). by rewrite append_assoc. Qed.

Lemma create_stmt_ends schema table col_lines :
  ends_with (nl +:+ ");") (create_stmt schema table col_lines).
Proof. unfold create_stmt. do 8 apply ends_with_app. apply ends_with_refl. Qed.

(** C10. Every text that [table_schema] returns ends with a semicolon: on
    the native path it is the dump without its trailing semicolons, followed
    by exactly one; on the reconstruction path it ends with a new line and
    [");"]. *)
Theorem table_schema_ends_with_semicolon conn table schema tr ddl tr' :
  table_schema conn table schema tr = (inr ddl, tr') →
  ends_with ";" ddl
  ∧ ((∃ text n,
        pg_get_tabledef (conn_db conn) (schema +:+ "." +:+ table) = inr (Some text)
        ∧ text = rstrip semicolon text +:+ repeat_char semicolon n
        ∧ last_char (rstrip semicolon text) ≠ Some semicolon
        ∧ ddl = rstrip semicolon text +:+ ";")
     ∨ ends_with (nl +:+ ");") ddl).
Proof.
  intros [(tr1 & Hnative & _) | (tr1 & _ & Hrec)]%table_schema_inr.
  - apply native_tabledef_inr in Hnative as [[? _] | (_ & value & Hvalue & Hddl)]; [done|].
    destruct value as [text|]; [|done].
    destruct (truthy text); [|done]. injection Hddl as ->.
    split; [by eexists|]. left.
    destruct (rstrip_decompose semicolon text) as [n Hn].
    exists text, n. split_and!; [done..| apply rstrip_last_char |done].
  - apply reconstruct_inr in Hrec as (cons & _ & -> & _).
    split; [|right; apply create_stmt_ends].
    eapply ends_with_trans; [apply create_stmt_ends|].
    by exists (nl +:+ ")").
Qed.

Lemma table_schema_ends_with_semicolon_witness :
  ∃ ddl tr',
    table_schema demo_conn "users" "public" [] = (inr ddl, tr')
    ∧ ends_with ";" ddl.
Proof.
  eexists _, _. split; [vm_compute; reflexivity|].
  eapply (table_schema_ends_with_semicolon demo_conn "users" "public" []).
  vm_compute. reflexivity.
Defined.

(** C4. When the probe reports support and the native function returns a
    text that is not empty, [table_schema] returns that text with its
    trailing semicolons replaced by one, and the only statements it sends are
    the probe and the call of the native function: no existence check, no
    column query, no constraint query. *)
Theorem native_dump_short_circuits conn table schema tr tr1 text :
  _redshift_pg_get_tabledef_available conn tr = (inr true, tr1) →
  conn_fault conn (length tr1) = None →
  pg_get_tabledef (conn_db conn) (schema +:+ "." +:+ table) = inr (Some text) →
  text ≠ EmptyString →
  table_schema conn table schema tr
  = (inr (rstrip semicolon text +:+ ";"),
     tr ++ [Q_tabledef_count; Q_tabledef (schema +:+ "." +:+ table)])
  ∧ (∃ n, text = rstrip semicolon text +:+ repeat_char semicolon n)
  ∧ last_char (rstrip semicolon text) ≠ Some semicolon.
Proof.
  intros Hprobe Hfault Hdump Htext.
  split; [|split; [apply rstrip_decompose | apply rstrip_last_char]].
  pose proof (probe_inr _ _ _ _ Hprobe) as [_ ->].
  unfold table_schema, native_tabledef.
  rewrite (bind_ok _ _ _ (Some (rstrip semicolon text +:+ ";"))
             (tr ++ [Q_tabledef_count; Q_tabledef (schema +:+ "." +:+ table)])); [done|].
  rewrite (bind_ok _ _ _ _ _ Hprobe). cbv zeta.
  erewrite bind_ok.
  2:{ apply execute_ok; [done|]. unfold sql_tabledef. by rewrite Hdump. }
  unfold ret. simpl. rewrite <-app_assoc. by destruct text.
Qed.

Lemma native_dump_short_circuits_witness :
  table_schema redshift_conn "users" "public" []
  = (inr "CREATE TABLE public.users (id bigint, name varchar(100));",
     [Q_tabledef_count; Q_tabledef "public.users"]).
Proof.
  apply (native_dump_short_circuits redshift_conn "users" "public" []
           [Q_tabledef_count] native_users_ddl); [reflexivity..|discriminate].
Defined.



(** ** Dicts *)

Lemma dict_of_items_union {V} (items : list (string * V)) (d : gmap string V) :
  NoDup items.*1 →
  foldl (λ d kv, <[kv.1 := kv.2]> d) d items = list_to_map items ∪ d.
Proof.
  revert d. induction items as [|[k v] items IH]; intros d Hnodup.
  - simpl. by rewrite (left_id_L ∅ (∪)).
  - rewrite fmap_cons in Hnodup. apply NoDup_cons in Hnodup as [Hk Hnodup].
    cbn [foldl]. rewrite IH by done.
    rewrite list_to_map_cons, <-insert_union_l. symmetry.
    apply insert_union_r. by apply not_elem_of_list_to_map_1.
Qed.

Lemma dict_of_items_list_to_map {V} (items : list (string * V)) :
  NoDup items.*1 → dict_of_items items = list_to_map items.
Proof.
  intros Hnodup. unfold dict_of_items.
  by rewrite dict_of_items_union, (right_id_L ∅ (∪)).
Qed.

(** A dict comprehension with a constant value. *)
Lemma dict_of_items_const {V} (keys : list string) (v : V) (k : string) :
  dict_of_items ((λ t, (t, v)) <$> keys) !! k
  = if decide (k ∈ keys) then Some v else None.
Proof.
  unfold dict_of_items.
  assert (∀ d : gmap string V,
            foldl (λ d kv, <[kv.1 := kv.2]> d) d ((λ t, (t, v)) <$> keys) !! k
            = if decide (k ∈ keys) then Some v else d !! k) as ->; [|done].
  induction keys as [|t keys IH]; intros d.
  - by rewrite decide_False by apply not_elem_of_nil.
  - rewrite fmap_cons. cbn [foldl fst snd]. rewrite IH.
    destruct (decide (k ∈ keys)) as [Hin|Hnotin].
    + rewrite decide_True; [done | by right].
    + destruct (decide (k = t)) as [->|Hne].
      * rewrite decide_True by left. by rewrite lookup_insert_eq.
      * rewrite lookup_insert_ne by done.
        rewrite decide_False; [done|]. by intros [?|?]%elem_of_cons.
Qed.

Lemma sorted_items_perm {V} (m : gmap string V) : sorted_items m ≡ₚ map_to_list m.
Proof. apply merge_sort_Permutation. Qed.

Lemma sorted_items_keys {V} (m : gmap string V) (k : string) :
  k ∈ (sorted_items m).*1 ↔ is_Some (m !! k).
Proof.
  rewrite sorted_items_perm, list_elem_of_fmap. split.
  - intros ([k' v] & -> & Hkv%elem_of_map_to_list). by exists v.
  - intros [v Hv]. exists (k, v). by rewrite elem_of_map_to_list.
Qed.

Lemma dict_of_sorted_items {V} (m : gmap string V) : dict_of_items (sorted_items m) = m.
Proof.
  rewrite dict_of_items_list_to_map.
  - rewrite <-(list_to_map_to_list m) at 2.
    apply list_to_map_proper; [|apply sorted_items_perm].
    rewrite sorted_items_perm. apply NoDup_fst_map_to_list.
  - rewrite sorted_items_perm. apply NoDup_fst_map_to_list.
Qed.

(** ** Multi-table operations *)

Lemma table_schema_dict_app conn schema pre rest acc tr acc' tr' :
  table_schema_dict conn schema pre acc tr = (inr acc', tr') →
  table_schema_dict conn schema (pre ++ rest) acc tr
  = table_schema_dict conn schema rest acc' tr'.
Proof.
  revert acc tr. induction pre as [|t pre IH]; intros acc tr; simpl.
  - by intros [= -> ->].
  - intros (ddl & tr1 & Hddl & Hrest)%bind_inr.
    rewrite (bind_ok _ _ _ _ _ Hddl). by apply IH.
Qed.

(** A mapping that is returned has an entry for every table it was asked
    for, and each entry is a text that [table_schema] returned. *)
Lemma table_schema_dict_inr conn schema tables acc tr m tr' :
  table_schema_dict conn schema tables acc tr = (inr m, tr') →
  ∀ t, is_Some (m !! t) ↔ t ∈ tables ∨ is_Some (acc !! t).
Proof.
  revert acc tr. induction tables as [|t0 tables IH]; intros acc tr; simpl.
  - intros [= -> ->] t. rewrite elem_of_nil. tauto.
  - intros (ddl & tr1 & _ & Hrest)%bind_inr t.
    rewrite (IH _ _ Hrest), elem_of_cons.
    destruct (decide (t = t0)) as [->|Hne].
    + rewrite lookup_insert_eq. split; [auto|]. intros _. right. by eexists.
    + rewrite lookup_insert_ne by done. tauto.
Qed.

Lemma list_table_schemas_inr conn schema tr m tr' :
  list_table_schemas conn schema tr = (inr m, tr') →
  conn_fault conn (length tr) = None
  ∧ table_schema_dict conn schema (sql_list_tables (conn_db conn) schema) ∅
      (tr ++ [Q_list_tables schema]) = (inr m, tr')
  ∧ ∀ t, is_Some (m !! t) ↔ t ∈ sql_list_tables (conn_db conn) schema.
Proof.
  unfold list_table_schemas, list_tables.
  intros (tables & tr1 & Htables & Hdict)%bind_inr.
  apply bind_inr in Htables as (rows & tr0 & (? & [= <-] & ->)%execute_inr & [= <- <-]).
  split_and!; [done..|]. intros t.
  rewrite (table_schema_dict_inr _ _ _ _ _ _ _ Hdict), lookup_empty.
  split; [intros [?|[? [=]]]; done | auto].
Qed.

Lemma table_schemas_body_inr conn schema tr snap tr' :
  table_schemas_body conn schema tr = (inr snap, tr') →
  ∃ mapping tr1,
    list_table_schemas conn schema tr = (inr mapping, tr1)
    ∧ tr' = tr1 ++ [Q_indexes schema; Q_partitioned_parents schema; Q_inherits schema]
    ∧ snap_schema snap = schema
    ∧ snap_tables snap = (sorted_items mapping).*1
    ∧ snap_ddl snap = mapping
    ∧ snap_indexes snap
      = fill_indexes (sql_indexes (conn_db conn) schema)
          (dict_of_items ((λ t, (t, [])) <$> (sorted_items mapping).*1))
    ∧ snap_partitions snap
      = fill_children (sql_inherits (conn_db conn) schema)
          (fill_parents (sql_partitioned_parents (conn_db conn) schema)
             (dict_of_items ((λ t, (t, empty_part_info)) <$> (sorted_items mapping).*1))).
Proof.
  unfold table_schemas_body.
  intros (mapping & tr1 & Hmapping & Hrest)%bind_inr.
  apply bind_inr in Hrest as (ix & tr2 & (_ & [= <-] & ->)%execute_inr & Hrest).
  apply bind_inr in Hrest as (pr & tr3 & (_ & [= <-] & ->)%execute_inr & Hrest).
  apply bind_inr in Hrest as (ir & tr4 & (_ & [= <-] & ->)%execute_inr & [= <- <-]).
  exists mapping, tr1. simpl. rewrite <-!app_assoc, dict_of_sorted_items. done.
Qed.

Lemma api_table_schemas_ok conn schema tr snap tr' :
  api_table_schemas conn schema tr = (Ok200 snap, tr') →
  table_schemas_body conn schema tr = (inr snap, tr').
Proof.
  unfold api_table_schemas.
  destruct (table_schemas_body conn schema tr) as [[e|body] tr1]; [done|].
  by intros [= -> ->].
Qed.

(** The tables of a snapshot are the base tables of the schema. *)
Lemma snapshot_tables conn schema tr snap tr' :
  api_table_schemas conn schema tr = (Ok200 snap, tr') →
  ∀ t, t ∈ snap_tables snap ↔ t ∈ sql_list_tables (conn_db conn) schema.
Proof.
  intros (m & tr1 & Hm & _ & _ & -> & _)%api_table_schemas_ok%table_schemas_body_inr t.
  rewrite sorted_items_keys. by apply list_table_schemas_inr in Hm as (_ & _ & ->).
Qed.

(** C6. In [list_table_schemas] and in the endpoint, the first table whose
    synthesis fails aborts the operation with that table's error: the helper
    raises it, the endpoint answers 400 with its message, and no statement is
    sent after the failure.  A mapping that is returned is never partial: it
    has a DDL text for every base table of the schema. *)
Theorem first_table_failure_aborts conn schema tr :
  (∀ pre t post tr1 acc tr2 e tr3,
     list_tables conn schema tr = (inr (pre ++ t :: post), tr1) →
     table_schema_dict conn schema pre ∅ tr1 = (inr acc, tr2) →
     table_schema conn t schema tr2 = (inl e, tr3) →
     list_table_schemas conn schema tr = (inl e, tr3)
     ∧ api_table_schemas conn schema tr = (Err400 (exn_message e), tr3))
  ∧ (∀ mapping tr',
       list_table_schemas conn schema tr = (inr mapping, tr') →
       ∀ t, t ∈ sql_list_tables (conn_db conn) schema → is_Some (mapping !! t))
  ∧ (∀ snap tr',
       api_table_schemas conn schema tr = (Ok200 snap, tr') →
       ∀ t, t ∈ sql_list_tables (conn_db conn) schema → is_Some (snap_ddl snap !! t)).
Proof.
  split_and!.
  - intros pre t post tr1 acc tr2 e tr3 Htables Hpre Hfail.
    assert (list_table_schemas conn schema tr = (inl e, tr3)) as Hlist.
    { unfold list_table_schemas. rewrite (bind_ok _ _ _ _ _ Htables).
      rewrite (table_schema_dict_app _ _ _ _ _ _ _ _ Hpre). simpl.
      by rewrite (bind_fail _ _ _ _ _ Hfail). }
    split; [done|].
    unfold api_table_schemas, table_schemas_body.
    by rewrite (bind_fail _ _ _ _ _ Hlist).
  - intros mapping tr' (_ & _ & Hdom)%list_table_schemas_inr t Ht. by apply Hdom.
  - intros snap tr' (m & tr1 & Hm & _ & _ & _ & -> & _)%api_table_schemas_ok%table_schemas_body_inr t Ht.
    apply list_table_schemas_inr in Hm as (_ & _ & Hdom). by apply Hdom.
Qed.

Lemma first_table_failure_aborts_witness :
  api_table_schemas lossy_conn "public" []
  = (Err400 "server closed the connection unexpectedly",
     [Q_list_tables "public"; Q_tabledef_count; Q_table_exists "public" "audit_log";
      Q_columns "public" "audit_log"; Q_constraints "public" "audit_log";
      Q_tabledef_count]).
Proof.
  pose proof (proj1 (first_table_failure_aborts lossy_conn "public" [])) as Habort.
  eapply (Habort ["audit_log"] "measurements"
            ["measurements_y2024"; "measurements_y2025"; "users"]
            _ _ _ (DbError "server closed the connection unexpectedly"));
    vm_compute; reflexivity.
Defined.

(** ** Orders of the [ORDER BY] clauses *)

Lemma char_code_inj a b : char_code a = char_code b → a = b.
Proof.
  unfold char_code. intros Heq.
  by rewrite <-(ascii_N_embedding a), <-(ascii_N_embedding b), Heq.
Qed.

Lemma str_lt_cases s1 s2 : str_lt s1 s2 ∨ s1 = s2 ∨ str_lt s2 s1.
Proof.
  unfold str_lt. destruct (decide (s1 = s2)) as [->|Hne]; [auto|].
  destruct (total String.le s1 s2); [left | right; right]; split; congruence.
Qed.

Lemma str_lt_irrefl s : ¬ str_lt s s.
Proof. by intros [_ ?]. Qed.

Lemma str_lt_trans s1 s2 s3 : str_lt s1 s2 → str_lt s2 s3 → str_lt s1 s3.
Proof.
  intros [H12 Hne12] [H23 Hne23]. split; [by etrans|].
  intros ->. apply Hne12. by apply (anti_symm String.le).
Qed.

Lemma str_lt_asym s1 s2 : str_lt s1 s2 → ¬ String.le s2 s1.
Proof. intros [Hle Hne] Hge. apply Hne. by apply (anti_symm String.le). Qed.

Global Instance by_contype_desc_conname_total : Total by_contype_desc_conname.
Proof.
  intros r1 r2. unfold by_contype_desc_conname.
  destruct (N.lt_trichotomy (char_code (c_contype r1)) (char_code (c_contype r2)))
    as [Hlt | [Heq%char_code_inj | Hgt]]; [auto | | auto].
  destruct (total String.le (c_conname r1) (c_conname r2)); auto.
Qed.

Global Instance by_contype_desc_conname_trans : Transitive by_contype_desc_conname.
Proof.
  intros r1 r2 r3. unfold by_contype_desc_conname.
  intros [H12 | [E12 L12]] [H23 | [E23 L23]].
  - left. by etrans.
  - left. by rewrite <-E23.
  - left. by rewrite E12.
  - right. split; [congruence | by etrans].
Qed.

Global Instance by_first_second_total {C} : Total (@by_first_second C).
Proof.
  intros r1 r2. unfold by_first_second.
  destruct (str_lt_cases r1.1.1 r2.1.1) as [? | [Heq | ?]]; [auto | | auto].
  destruct (total String.le r1.1.2 r2.1.2); auto.
Qed.

Global Instance by_first_second_trans {C} : Transitive (@by_first_second C).
Proof.
  intros r1 r2 r3. unfold by_first_second.
  intros [H12 | [E12 L12]] [H23 | [E23 L23]].
  - left. by eapply str_lt_trans.
  - left. by rewrite <-E23.
  - left. by rewrite E12.
  - right. split; [congruence | by etrans].
Qed.

Global Instance by_key_total {V} : Total (@by_key V).
Proof. intros kv1 kv2. unfold by_key. apply (total String.le). Qed.

Global Instance by_key_trans {V} : Transitive (@by_key V).
Proof. intros kv1 kv2 kv3. unfold by_key. apply transitivity. Qed.

Lemma order_by_sorted {A} (R : relation A) `{!RelDecision R, !Transitive R, !Total R}
    (rows : list A) :
  StronglySorted R (order_by R rows).
Proof. by apply StronglySorted_merge_sort. Qed.

Lemma order_by_perm {A} (R : relation A) `{!RelDecision R} (rows : list A) :
  order_by R rows ≡ₚ rows.
Proof. apply merge_sort_Permutation. Qed.

(** In a sorted list an earlier row is below a later one. *)
Lemma StronglySorted_lookup {A} (R : relation A) (l : list A) i j a b :
  StronglySorted R l → l !! i = Some a → l !! j = Some b → (i < j)%nat → R a b.
Proof.
  intros Hsorted. revert i j.
  induction Hsorted as [|x l _ IH Hx]; intros i j Hi Hj Hlt; [done|].
  destruct j as [|j]; [lia|]. destruct i as [|i]; simpl in *.
  - injection Hi as <-. eapply Forall_forall; [done|]. by eapply list_elem_of_lookup_2.
  - eapply IH; [done..|lia].
Qed.

(** ** The order of the constraints *)

Lemma sql_constraints_sorted db schema table constraints :
  sql_constraints db schema table = inr constraints →
  StronglySorted by_contype_desc_conname constraints.
Proof.
  unfold sql_constraints.
  destruct (sql_relation_oid db schema table) as [|relid [|]]; [| |done].
  - intros [= <-]. constructor.
  - intros [= <-]. apply order_by_sorted; apply _.
Qed.

(** C1, counterexample. For the [users] table, with a primary key, a unique
    constraint and a check constraint, the statement lists the unique
    constraint first and the primary key second. *)
Lemma primary_key_not_listed_first :
  ∃ constraints tr',
    table_schema demo_conn "users" "public" []
    = (inr (create_stmt "public" "users"
              ((col_line <$> sql_columns demo_db "public" "users")
               ++ (constraint_line <$> constraints))), tr')
    ∧ c_conname <$> constraints = ["users_email_key"; "users_pkey"; "age_check"]
    ∧ ¬ primary_key_listed_first constraints.
Proof.
  exists [ {| c_conname := "users_email_key"; c_contype := "u";
              c_condef := "UNIQUE (email)" |};
           {| c_conname := "users_pkey"; c_contype := "p";
              c_condef := "PRIMARY KEY (id)" |};
           {| c_conname := "age_check"; c_contype := "c";
              c_condef := "CHECK (age IS NULL OR age >= 0)" |} ].
  eexists. split_and!; [vm_compute; reflexivity | reflexivity |].
  intros Hfirst.
  specialize (Hfirst 1%nat 0%nat _ _ eq_refl eq_refl eq_refl). simpl in Hfirst.
  assert (1 < 0)%nat by (apply Hfirst; discriminate). lia.
Qed.

(** C1, as the code has it. On the reconstruction path the constraint lines
    follow the column lines in the order of the query: by the one-character
    type code descending, then by name ascending.  A constraint whose code is
    greater is listed earlier, so exclusion ('x') comes before unique ('u'),
    unique before primary key ('p'), primary key before foreign key ('f') and
    check ('c'); among constraints of one type the smaller name is listed
    earlier. *)
Theorem constraints_sorted_by_contype_desc conn table schema tr tr1 ddl tr' :
  native_tabledef conn table schema tr = (inr None, tr1) →
  table_schema conn table schema tr = (inr ddl, tr') →
  ∃ constraints,
    sql_constraints (conn_db conn) schema table = inr constraints
    ∧ ddl = create_stmt schema table
              ((col_line <$> sql_columns (conn_db conn) schema table)
               ++ (constraint_line <$> constraints))
    ∧ StronglySorted by_contype_desc_conname constraints
    ∧ (∀ i j a b,
         constraints !! i = Some a → constraints !! j = Some b →
         (char_code (c_contype b) < char_code (c_contype a))%N → (i < j)%nat)
    ∧ (∀ i j a b,
         constraints !! i = Some a → constraints !! j = Some b →
         c_contype a = c_contype b → str_lt (c_conname a) (c_conname b) →
         (i < j)%nat)
    ∧ (char_code "c" < char_code "f" < char_code "p"
       ∧ char_code "p" < char_code "u" < char_code "x")%N.
Proof.
  intros Hnative Hddl. unfold table_schema in Hddl.
  rewrite (bind_ok _ _ _ _ _ Hnative) in Hddl.
  apply reconstruct_inr in Hddl as (constraints & Hcons & -> & _).
  pose proof (sql_constraints_sorted _ _ _ _ Hcons) as Hsorted.
  exists constraints. do 3 (split; [done|]). split; [|split; [|by compute]].
  - intros i j a b Hi Hj Hcode.
    destruct (decide (i < j)%nat) as [|Hge]; [done|]. exfalso.
    destruct (decide (i = j)) as [->|Hne]; [rewrite Hi in Hj; injection Hj as ->; lia|].
    destruct (StronglySorted_lookup _ _ j i b a Hsorted Hj Hi) as [Hlt | [Heq _]];
      [lia | lia | rewrite Heq in Hcode; lia].
  - intros i j a b Hi Hj Htype Hname.
    destruct (decide (i < j)%nat) as [|Hge]; [done|]. exfalso.
    destruct (decide (i = j)) as [->|Hne].
    { rewrite Hi in Hj. injection Hj as ->. by eapply str_lt_irrefl. }
    destruct (StronglySorted_lookup _ _ j i b a Hsorted Hj Hi) as [Hlt | [_ Hle]];
      [lia | rewrite Htype in Hlt; lia | by eapply str_lt_asym].
Qed.

Lemma constraints_sorted_by_contype_desc_witness :
  ∃ constraints,
    sql_constraints demo_db "public" "users" = inr constraints
    ∧ StronglySorted by_contype_desc_conname constraints
    ∧ c_contype <$> constraints = ["u"; "p"; "c"]%char.
Proof.
  destruct (constraints_sorted_by_contype_desc demo_conn "users" "public" []
              [Q_tabledef_count]
              (create_stmt "public" "users"
                 ((col_line <$> sql_columns demo_db "public" "users")
                  ++ (constraint_line <$>
                        order_by by_contype_desc_conname (constraints_of demo_db 16384))))
              [Q_tabledef_count; Q_table_exists "public" "users";
               Q_columns "public" "users"; Q_constraints "public" "users"]
              eq_refl)
    as (constraints & Hcons & _ & Hsorted & _).
  - vm_compute. reflexivity.
  - exists constraints. split_and!; [done..|].
    vm_compute in Hcons. by injection Hcons as <-.
Defined.

(** ** The key columns of a partitioned table *)

(** C2, at the failing input. [measurements] is partitioned by
    [RANGE (logdate, city_id)], and [city_id] is its first column: the query
    aggregates the key columns by [a.attnum], so the endpoint reports
    [city_id, logdate], the order of the table's columns, where the key is
    [logdate, city_id]. *)
Theorem partition_key_columns_follow_table_ordinal :
  partattrs <$> pg_partitioned_table demo_db = [[2; 1]]
  ∧ key_columns_by_key_position demo_db "public" "measurements" = ["logdate"; "city_id"]
  ∧ sql_partitioned_parents demo_db "public"
    = [("measurements", Some "RANGE", ["city_id"; "logdate"])]
  ∧ ∃ snap tr' info pp,
      api_table_schemas demo_conn "public" [] = (Ok200 snap, tr')
      ∧ snap_partitions snap !! "measurements" = Some info
      ∧ as_parent info = Some pp
      ∧ pp_key_columns pp = ["city_id"; "logdate"].
Proof.
  split_and!; [reflexivity | by vm_compute | by vm_compute |].
  eexists _, _, _, _. split_and!; [by vm_compute | by vm_compute | done | done].
Qed.

(** ** The index mapping *)

Lemma add_index_lookup indexes tablename indexname indexdef t :
  add_index indexes (tablename, indexname, indexdef) !! t
  = (λ entries, entries ++ index_entries t [(tablename, indexname, indexdef)])
      <$> indexes !! t.
Proof.
  unfold add_index, index_entries.
  destruct (decide (tablename = t)) as [->|Hne].
  - rewrite filter_cons_True by done.
    destruct (indexes !! t) as [entries|] eqn:Ht; simpl.
    + by rewrite lookup_insert_eq.
    + by rewrite Ht.
  - rewrite filter_cons_False by done. simpl.
    destruct (indexes !! tablename) as [entries|] eqn:Ht.
    + rewrite lookup_insert_ne by done.
      destruct (indexes !! t); simpl; by rewrite ?app_nil_r.
    + destruct (indexes !! t); simpl; by rewrite ?app_nil_r.
Qed.

Lemma fill_indexes_lookup rows indexes t :
  fill_indexes rows indexes !! t
  = (λ entries, entries ++ index_entries t rows) <$> indexes !! t.
Proof.
  unfold fill_indexes. revert indexes.
  induction rows as [|[[tablename indexname] indexdef] rows IH]; intros indexes.
  - simpl. destruct (indexes !! t); simpl; by rewrite ?app_nil_r.
  - cbn [foldl]. rewrite IH, add_index_lookup.
    destruct (indexes !! t) as [entries|]; [|done]. simpl. f_equal.
    rewrite <-app_assoc. f_equal. unfold index_entries.
    by rewrite <-fmap_app, <-filter_app.
Qed.

Lemma StronglySorted_fmap_filter {A B} (R : relation A) (R' : relation B)
    (P : A → Prop) `{!∀ x, Decision (P x)} (f : A → B) (l : list A) :
  (∀ a b, P a → P b → R a b → R' (f a) (f b)) →
  StronglySorted R l → StronglySorted R' (f <$> filter P l).
Proof.
  intros Hmono Hsorted.
  induction Hsorted as [|x l _ IH Hx]; [constructor|].
  rewrite filter_cons. destruct (decide (P x)) as [HPx|]; [|done].
  rewrite fmap_cons. constructor; [done|].
  apply Forall_forall. intros y (a & -> & [HPa Ha]%list_elem_of_filter)%list_elem_of_fmap.
  apply Hmono; [done..|]. by eapply Forall_forall.
Qed.

Lemma sql_indexes_sorted db schema : StronglySorted by_first_second (sql_indexes db schema).
Proof. unfold sql_indexes. apply order_by_sorted; apply _. Qed.

Lemma sql_indexes_elem db schema r :
  r ∈ sql_indexes db schema ↔
  ∃ row, row ∈ pg_indexes db ∧ ix_schemaname row = schema
         ∧ r = (ix_tablename row, ix_indexname row, ix_indexdef row).
Proof.
  unfold sql_indexes. rewrite order_by_perm, list_elem_of_fmap.
  split.
  - intros (row & -> & [? ?]%list_elem_of_filter). eauto.
  - intros (row & ? & ? & ->). exists row. by rewrite list_elem_of_filter.
Qed.

Lemma sql_list_tables_elem db schema t :
  t ∈ sql_list_tables db schema ↔
  ∃ r, r ∈ information_schema_tables db ∧ is_base_table schema r ∧ ist_table_name r = t.
Proof.
  unfold sql_list_tables. rewrite order_by_perm, list_elem_of_fmap.
  split.
  - intros (r & -> & [? ?]%list_elem_of_filter). eauto.
  - intros (r & ? & ? & <-). exists r. by rewrite list_elem_of_filter.
Qed.

(** C7. In a snapshot every base table of the schema is a key of the index
    mapping.  Its value starts as the empty sequence and receives the
    table's rows of [pg_indexes] in the order of the query, which is by
    (table name, index name): the entries of a table are sorted by index
    name, and a table without indexes maps to the empty sequence. *)
Theorem snapshot_indexes_cover_every_table conn schema tr snap tr' :
  api_table_schemas conn schema tr = (Ok200 snap, tr') →
  StronglySorted by_first_second (sql_indexes (conn_db conn) schema)
  ∧ ∀ t,
      (∃ r, r ∈ information_schema_tables (conn_db conn)
            ∧ is_base_table schema r ∧ ist_table_name r = t) →
      t ∈ snap_tables snap
      ∧ ∃ entries,
          snap_indexes snap !! t = Some entries
          ∧ entries = index_entries t (sql_indexes (conn_db conn) schema)
          ∧ StronglySorted by_index_name entries
          ∧ ((∀ row, row ∈ pg_indexes (conn_db conn) →
                     ¬ (ix_schemaname row = schema ∧ ix_tablename row = t)) →
             entries = []).
Proof.
  intros Hok. split; [apply sql_indexes_sorted|]. intros t Ht%sql_list_tables_elem.
  pose proof (snapshot_tables _ _ _ _ _ Hok t) as Htables.
  apply api_table_schemas_ok, table_schemas_body_inr in Hok
    as (m & tr1 & _ & _ & _ & Hnames & _ & Hix & _).
  split; [by apply Htables|].
  exists (index_entries t (sql_indexes (conn_db conn) schema)). split_and!.
  - rewrite Hix, fill_indexes_lookup, dict_of_items_const.
    rewrite decide_True; [done|]. rewrite <-Hnames. by apply Htables.
  - done.
  - apply (StronglySorted_fmap_filter by_first_second); [|apply sql_indexes_sorted].
    intros [[t1 n1] d1] [[t2 n2] d2]; simpl. intros -> -> [[_ ?] | [_ ?]]; done.
  - intros Hnone. unfold index_entries. rewrite filter_none; [done|].
    intros [[t1 n1] d1] (row & Hrow & Hschema & [= -> -> ->])%sql_indexes_elem.
    simpl. intros <-. by apply (Hnone row).
Qed.

Lemma demo_snapshot_ok :
  api_table_schemas demo_conn "public" [] = (Ok200 demo_snapshot, demo_trace).
Proof. by vm_compute. Qed.

Lemma snapshot_indexes_cover_every_table_witness :
  snap_indexes demo_snapshot !! "audit_log" = Some [].
Proof.
  destruct (proj2 (snapshot_indexes_cover_every_table demo_conn "public" []
                     demo_snapshot demo_trace demo_snapshot_ok) "audit_log")
    as (_ & entries & -> & _ & _ & ->); [|done|].
  - eexists. split; [by do 4 right; left|done].
  - intros row Hrow. vm_compute in Hrow.
    repeat (apply elem_of_cons in Hrow as [-> | Hrow]); [| |by apply elem_of_nil in Hrow];
      by intros [_ [=]].
Defined.

Example demo_snapshot_users_indexes :
  ie_name <$> default [] (snap_indexes demo_snapshot !! "users")
  = ["users_email_key"; "users_pkey"].
Proof. by vm_compute. Qed.

(** ** The partition mapping *)

Lemma add_parent_lookup partitions row t :
  add_parent partitions row !! t = (λ info, declare_parent t info row) <$> partitions !! t.
Proof.
  destruct row as [[tablename strategy] key_columns].
  unfold add_parent, declare_parent. simpl.
  destruct (decide (tablename = t)) as [->|Hne].
  - destruct (partitions !! t) as [info|] eqn:Ht; simpl.
    + by rewrite lookup_insert_eq.
    + by rewrite Ht.
  - destruct (partitions !! tablename).
    + rewrite lookup_insert_ne by done. by destruct (partitions !! t).
    + by destruct (partitions !! t).
Qed.

Lemma fill_parents_lookup rows partitions t :
  fill_parents rows partitions !! t
  = (λ info, foldl (declare_parent t) info rows) <$> partitions !! t.
Proof.
  unfold fill_parents. revert partitions.
  induction rows as [|row rows IH]; intros partitions.
  - simpl. by destruct (partitions !! t).
  - cbn [foldl]. rewrite IH, add_parent_lookup. by destruct (partitions !! t).
Qed.

Lemma link_parent_lookup parent child bounds partitions t :
  link_parent parent child bounds partitions !! t
  = (λ info,
       if decide (parent = t)
       then {| as_parent :=
                 Some {| pp_strategy := pp_strategy (open_parent info);
                         pp_key_columns := pp_key_columns (open_parent info);
                         pp_children := pp_children (open_parent info)
                           ++ [{| ch_name := child; ch_bounds := or_empty bounds |}] |};
               as_child := as_child info |}
       else info) <$> partitions !! t.
Proof.
  unfold link_parent, open_parent.
  destruct (decide (parent = t)) as [->|Hne].
  - destruct (partitions !! t) as [info|] eqn:Ht; simpl.
    + rewrite lookup_insert_eq. by destruct (as_parent info).
    + by rewrite Ht.
  - destruct (partitions !! parent).
    + rewrite lookup_insert_ne by done. by destruct (partitions !! t).
    + by destruct (partitions !! t).
Qed.

Lemma link_child_lookup parent child bounds partitions t :
  link_child parent child bounds partitions !! t
  = (λ info,
       if decide (child = t)
       then {| as_parent := as_parent info;
               as_child := Some {| cp_parent := parent; cp_bounds := or_empty bounds |} |}
       else info) <$> partitions !! t.
Proof.
  unfold link_child.
  destruct (decide (child = t)) as [->|Hne].
  - destruct (partitions !! t) as [info|] eqn:Ht; simpl.
    + by rewrite lookup_insert_eq.
    + by rewrite Ht.
  - destruct (partitions !! child).
    + rewrite lookup_insert_ne by done. by destruct (partitions !! t).
    + by destruct (partitions !! t).
Qed.

Lemma add_link_lookup partitions row t :
  add_link partitions row !! t = (λ info, link t info row) <$> partitions !! t.
Proof.
  destruct row as [[parent child] bounds]. unfold add_link, link. simpl.
  rewrite link_child_lookup, link_parent_lookup.
  by destruct (partitions !! t).
Qed.

Lemma fill_children_lookup rows partitions t :
  fill_children rows partitions !! t
  = (λ info, foldl (link t) info rows) <$> partitions !! t.
Proof.
  unfold fill_children. revert partitions.
  induction rows as [|row rows IH]; intros partitions.
  - simpl. by destruct (partitions !! t).
  - cbn [foldl]. rewrite IH, add_link_lookup. by destruct (partitions !! t).
Qed.

Lemma declare_parent_untouched t info rows :
  (∀ r : ParentRow, r ∈ rows → r.1.1 ≠ t) →
  foldl (declare_parent t) info rows = info.
Proof.
  revert info. induction rows as [|row rows IH]; intros info Hrows; [done|].
  cbn [foldl]. unfold declare_parent at 2.
  rewrite decide_False by (apply Hrows; left).
  apply IH. intros r Hr. apply Hrows. by right.
Qed.


Lemma link_untouched t info rows :
  (∀ r : InheritRow, r ∈ rows → r.1.1 ≠ t ∧ r.1.2 ≠ t) →
  foldl (link t) info rows = info.
Proof.
  revert info. induction rows as [|row rows IH]; intros info Hrows; [done|].
  cbn [foldl]. destruct (Hrows row) as [Hp Hc]; [by left|].
  unfold link at 2. rewrite !decide_False by done.
  apply IH. intros r Hr. apply Hrows. by right.
Qed.

Lemma children_of_snoc t rows row :
  children_of t (rows ++ [row])
  = children_of t rows
    ++ (if decide (row.1.1 = t)
        then [{| ch_name := row.1.2; ch_bounds := or_empty row.2 |}] else []).
Proof.
  unfold children_of. rewrite filter_app, fmap_app. f_equal.
  rewrite filter_cons, filter_nil. by destruct (decide (row.1.1 = t)).
Qed.

(** The parent keys after the links: the children are appended in the order
    of the rows, the strategy and the key columns stay. *)
Lemma link_as_parent t info rows :
  as_parent (foldl (link t) info rows)
  = match children_of t rows with
    | [] => as_parent info
    | _ :: _ =>
        Some {| pp_strategy := pp_strategy (open_parent info);
                pp_key_columns := pp_key_columns (open_parent info);
                pp_children := pp_children (open_parent info) ++ children_of t rows |}
    end.
Proof.
  induction rows as [|row rows IH] using rev_ind; [done|].
  rewrite foldl_snoc, children_of_snoc.
  set (before := foldl (link t) info rows) in *.
  assert (Hopen : open_parent before
                  = {| pp_strategy := pp_strategy (open_parent info);
                       pp_key_columns := pp_key_columns (open_parent info);
                       pp_children := pp_children (open_parent info)
                                      ++ children_of t rows |}).
  { unfold open_parent at 1. rewrite IH.
    destruct (children_of t rows); [|done].
    rewrite app_nil_r. fold (open_parent info). by destruct (open_parent info). }
  unfold link. destruct (decide (row.1.1 = t)) as [Hp|Hp].
  - assert (as_parent (if decide (row.1.2 = t)
                       then {| as_parent := Some {|
                                 pp_strategy := pp_strategy (open_parent before);
                                 pp_key_columns := pp_key_columns (open_parent before);
                                 pp_children := pp_children (open_parent before)
                                   ++ [{| ch_name := row.1.2;
                                          ch_bounds := or_empty row.2 |}] |};
                               as_child := Some {| cp_parent := row.1.1;
                                                   cp_bounds := or_empty row.2 |} |}
                       else {| as_parent := Some {|
                                 pp_strategy := pp_strategy (open_parent before);
                                 pp_key_columns := pp_key_columns (open_parent before);
                                 pp_children := pp_children (open_parent before)
                                   ++ [{| ch_name := row.1.2;
                                          ch_bounds := or_empty row.2 |}] |};
                               as_child := as_child before |})
            = Some {| pp_strategy := pp_strategy (open_parent before);
                      pp_key_columns := pp_key_columns (open_parent before);
                      pp_children := pp_children (open_parent before)
                        ++ [{| ch_name := row.1.2; ch_bounds := or_empty row.2 |}] |})
      as Hres by by destruct (decide (row.1.2 = t)).
    simpl in *. rewrite Hres, Hopen. simpl. rewrite <-app_assoc.
    by destruct (children_of t rows).
  - rewrite app_nil_r.
    assert (as_parent (if decide (row.1.2 = t)
                       then {| as_parent := as_parent before;
                               as_child := Some {| cp_parent := row.1.1;
                                                   cp_bounds := or_empty row.2 |} |}
                       else before) = as_parent before)
      as -> by by destruct (decide (row.1.2 = t)).
    done.
Qed.


(** The entry of a table of the snapshot, by the two loops. *)
Lemma snapshot_partition_entry conn schema tr snap tr' t :
  api_table_schemas conn schema tr = (Ok200 snap, tr') →
  t ∈ snap_tables snap →
  snap_partitions snap !! t
  = Some (foldl (link t)
            (foldl (declare_parent t) empty_part_info
               (sql_partitioned_parents (conn_db conn) schema))
            (sql_inherits (conn_db conn) schema)).
Proof.
  intros (m & tr1 & _ & _ & _ & Hnames & _ & _ & ->)%api_table_schemas_ok%table_schemas_body_inr Ht.
  rewrite fill_children_lookup, fill_parents_lookup, dict_of_items_const.
  rewrite decide_True; [done|]. by rewrite <-Hnames.
Qed.

Lemma snapshot_partition_absent conn schema tr snap tr' t :
  api_table_schemas conn schema tr = (Ok200 snap, tr') →
  t ∉ snap_tables snap →
  snap_partitions snap !! t = None.
Proof.
  intros (m & tr1 & _ & _ & _ & Hnames & _ & _ & ->)%api_table_schemas_ok%table_schemas_body_inr Ht.
  rewrite fill_children_lookup, fill_parents_lookup, dict_of_items_const.
  rewrite decide_False; [done|]. by rewrite <-Hnames.
Qed.

(** The rows of the link query, in terms of the catalog. *)
Lemma sql_inherits_elem db schema parent child bounds :
  (parent, child, bounds) ∈ sql_inherits db schema ↔
  ∃ i c p np nc,
    i ∈ pg_inherits db
    ∧ c ∈ pg_class db ∧ cls_oid c = inhrelid i
    ∧ p ∈ pg_class db ∧ cls_oid p = inhparent i
    ∧ np ∈ pg_namespace db ∧ ns_oid np = relnamespace p ∧ nspname np = schema
    ∧ nc ∈ pg_namespace db ∧ ns_oid nc = relnamespace c ∧ nspname nc = schema
    ∧ relname p = parent ∧ relname c = child ∧ relpartbound c = bounds.
Proof.
  unfold sql_inherits. rewrite order_by_perm.
  repeat setoid_rewrite list_elem_of_bind.
  repeat setoid_rewrite list_elem_of_filter.
  split.
  - intros (i & (c & (p & (np & (nc & Hrow & Hnc & ?) & Hnp & ?) & Hp & ?) & Hc & ?) & ?).
    destruct (decide _) as [[? ?]|]; [|by apply elem_of_nil in Hrow].
    apply list_elem_of_singleton in Hrow as [= -> -> ->].
    exists i, c, p, np, nc. done.
  - intros (i & c & p & np & nc & ? & ? & ? & ? & ? & ? & ? & ? & ? & ? & ? & <- & <- & <-).
    exists i. split; [|done]. exists c. split; [|done]. exists p. split; [|done].
    exists np. split; [|done]. exists nc. split; [|done].
    rewrite decide_True by done. by apply list_elem_of_singleton.
Qed.



Example demo_snapshot_children :
  children_of "measurements" (sql_inherits demo_db "public")
  = [ {| ch_name := "measurements_y2024"; ch_bounds := bound_2024 |};
      {| ch_name := "measurements_y2025"; ch_bounds := bound_2025 |} ].
Proof. by vm_compute. Qed.

Lemma demo_users_unlinked :
  "users" ∈ snap_tables demo_snapshot
  ∧ (∀ r : ParentRow, r ∈ sql_partitioned_parents demo_db "public" → r.1.1 ≠ "users")
  ∧ (∀ r : InheritRow, r ∈ sql_inherits demo_db "public" →
       r.1.1 ≠ "users" ∧ r.1.2 ≠ "users").
Proof.
  split_and!.
  - vm_compute. by do 4 right; left.
  - intros r Hr. vm_compute in Hr.
    repeat (apply elem_of_cons in Hr as [-> | Hr]); [done | by apply elem_of_nil in Hr].
  - intros r Hr. vm_compute in Hr.
    repeat (apply elem_of_cons in Hr as [-> | Hr]); [done.. | by apply elem_of_nil in Hr].
Qed.

(** C9, counterexample. [users] is not partitioned, is nobody's parent and
    nobody's child, and the partition mapping of the snapshot has an entry
    for it. *)
Lemma unlinked_table_has_an_entry :
  api_table_schemas demo_conn "public" [] = (Ok200 demo_snapshot, demo_trace)
  ∧ "users" ∈ snap_tables demo_snapshot
  ∧ (∀ r : ParentRow, r ∈ sql_partitioned_parents demo_db "public" → r.1.1 ≠ "users")
  ∧ (∀ r : InheritRow, r ∈ sql_inherits demo_db "public" →
       r.1.1 ≠ "users" ∧ r.1.2 ≠ "users")
  ∧ ¬ no_partition_entry demo_snapshot "users".
Proof.
  destruct demo_users_unlinked as (Hknown & Hparents & Hlinks).
  split_and!; [apply demo_snapshot_ok | done.. |by vm_compute].
Qed.

(** C9, as the code has it. A base table of the schema that no row of the
    two partition queries mentions keeps the entry it was initialised with:
    the empty dict, with neither the parent keys nor the child keys.  A name
    that is not a base table of the schema has no entry. *)
Theorem unlinked_table_has_empty_entry conn schema tr snap tr' t :
  api_table_schemas conn schema tr = (Ok200 snap, tr') →
  (∀ r : ParentRow, r ∈ sql_partitioned_parents (conn_db conn) schema → r.1.1 ≠ t) →
  (∀ r : InheritRow, r ∈ sql_inherits (conn_db conn) schema → r.1.1 ≠ t ∧ r.1.2 ≠ t) →
  (t ∈ snap_tables snap → snap_partitions snap !! t = Some empty_part_info)
  ∧ (t ∉ snap_tables snap → snap_partitions snap !! t = None).
Proof.
  intros Hok Hparents Hlinks. split; intros Ht.
  - rewrite (snapshot_partition_entry _ _ _ _ _ _ Hok Ht).
    by rewrite declare_parent_untouched, link_untouched.
  - by eapply snapshot_partition_absent.
Qed.

Lemma unlinked_table_has_empty_entry_witness :
  snap_partitions demo_snapshot !! "users" = Some empty_part_info.
Proof.
  apply (unlinked_table_has_empty_entry demo_conn "public" [] demo_snapshot demo_trace
           "users" demo_snapshot_ok).
  - apply demo_users_unlinked.
  - apply demo_users_unlinked.
  - apply demo_users_unlinked.
Defined.

(** * Further properties *)

(** ** [list_tables] *)

(** X1. On a statement that goes through, [list_tables] sends one statement
    and returns the names of the schema's rows of type ['BASE TABLE'] (views
    and other schemas are left out), each as often as it occurs, in ascending
    order. *)
Theorem list_tables_sorted_base_tables conn schema tr :
  conn_fault conn (length tr) = None →
  ∃ names,
    list_tables conn schema tr = (inr names, tr ++ [Q_list_tables schema])
    ∧ StronglySorted String.le names
    ∧ names ≡ₚ ist_table_name
                 <$> filter (is_base_table schema)
                            (information_schema_tables (conn_db conn))
    ∧ ∀ t, t ∈ names ↔
           ∃ r, r ∈ information_schema_tables (conn_db conn)
                ∧ ist_table_schema r = schema
                ∧ ist_table_type r = "BASE TABLE"
                ∧ ist_table_name r = t.
Proof.
  intros Hfault. exists (sql_list_tables (conn_db conn) schema). split_and!.
  - unfold list_tables. by erewrite bind_ok; [|by apply execute_ok].
  - apply order_by_sorted; apply _.
  - apply order_by_perm.
  - intros t. rewrite sql_list_tables_elem. unfold is_base_table.
    split; [intros (r & ? & [? ?] & ?) | intros (r & ? & ? & ? & ?)]; exists r; done.
Qed.

Lemma list_tables_sorted_base_tables_witness :
  ∃ names,
    list_tables demo_conn "public" [] = (inr names, [Q_list_tables "public"])
    ∧ StronglySorted String.le names.
Proof.
  destruct (list_tables_sorted_base_tables demo_conn "public" [] eq_refl)
    as (names & Hrun & Hsorted & _).
  by exists names.
Defined.

Example demo_list_tables :
  list_tables demo_conn "public" []
  = (inr ["audit_log"; "measurements"; "measurements_y2024"; "measurements_y2025";
          "users"],
     [Q_list_tables "public"]).
Proof. by vm_compute. Qed.

(** ** [table_schema] on a healthy connection *)

Lemma list_bind_none {A B} (f : A → list B) (l : list A) :
  (∀ x, x ∈ l → f x = []) → l ≫= f = [].
Proof.
  induction l as [|x l IH]; [done|]. intros Hnone.
  rewrite bind_cons, Hnone by left. apply IH. intros y Hy. apply Hnone. by right.
Qed.

Lemma probe_without_function conn tr :
  conn_fault conn (length tr) = None →
  no_native_dump (conn_db conn) →
  _redshift_pg_get_tabledef_available conn tr = (inr false, tr ++ [Q_tabledef_count]).
Proof.
  intros Hfault Hnone. unfold _redshift_pg_get_tabledef_available.
  erewrite bind_ok; [|by apply execute_ok].
  unfold sql_tabledef_count. rewrite list_bind_none; [done|].
  intros p Hp. apply list_bind_none. intros n _.
  rewrite decide_False; [done|]. by apply Hnone.
Qed.

Lemma sql_table_exists_listed db schema table :
  table ∈ sql_list_tables db schema →
  ∃ row rows, sql_table_exists db schema table = row :: rows.
Proof.
  intros (r & Hr & [Hs Ht] & Hn)%sql_list_tables_elem.
  unfold sql_table_exists.
  destruct (filter _ (information_schema_tables db)) as [|x xs] eqn:Hfilter.
  - exfalso. eapply filter_nil_not_elem_of; [exact Hfilter| |exact Hr]. done.
  - rewrite fmap_cons. eauto.
Qed.

Lemma table_schema_of_listed_table_core conn table schema tr constraints :
  (∀ k, (k < 4)%nat → conn_fault conn (length tr + k) = None) →
  no_native_dump (conn_db conn) →
  table ∈ sql_list_tables (conn_db conn) schema →
  sql_constraints (conn_db conn) schema table = inr constraints →
  table_schema conn table schema tr
  = (inr (create_stmt schema table
            ((col_line <$> sql_columns (conn_db conn) schema table)
             ++ (constraint_line <$> constraints))),
     tr ++ reconstruction_queries schema table).
Proof.
  intros Hfault Hnone Hlisted Hcons.
  assert (H0 : conn_fault conn (length tr) = None)
    by (rewrite <-(Nat.add_0_r (length tr)); apply Hfault; lia).
  unfold table_schema, native_tabledef.
  rewrite (bind_ok _ _ _ None (tr ++ [Q_tabledef_count])).
  2:{ by rewrite (bind_ok _ _ _ _ _ (probe_without_function _ _ H0 Hnone)). }
  unfold reconstruct.
  erewrite bind_ok.
  2:{ apply execute_ok; [|done]. rewrite length_app. simpl. apply Hfault. lia. }
  destruct (sql_table_exists_listed _ _ _ Hlisted) as (row & rows & ->). simpl.
  erewrite bind_ok.
  2:{ apply execute_ok; [|done]. rewrite !length_app. simpl.
      rewrite <-Nat.add_assoc. apply Hfault. simpl. lia. }
  erewrite bind_ok.
  2:{ apply execute_ok; [|exact Hcons]. rewrite !length_app. simpl.
      rewrite <-!Nat.add_assoc. apply Hfault. simpl. lia. }
  unfold ret, reconstruction_queries. by rewrite <-!app_assoc.
Qed.

(** X2. A table that [list_tables] reports is never "not found": on an
    engine without the native function, if the four statements go through
    and the constraint query is accepted, [table_schema] returns the
    reconstructed statement and has sent exactly the probe, the existence
    check, the column query and the constraint query. *)
Theorem table_schema_of_listed_table conn table schema tr constraints :
  (∀ k, (k < 4)%nat → conn_fault conn (length tr + k) = None) →
  no_native_dump (conn_db conn) →
  table ∈ sql_list_tables (conn_db conn) schema →
  sql_constraints (conn_db conn) schema table = inr constraints →
  table_schema conn table schema tr
  = (inr (create_stmt schema table
            ((col_line <$> sql_columns (conn_db conn) schema table)
             ++ (constraint_line <$> constraints))),
     tr ++ reconstruction_queries schema table).
Proof. apply table_schema_of_listed_table_core. Qed.

Lemma table_schema_of_listed_table_witness :
  ∃ ddl,
    table_schema demo_conn "audit_log" "public" []
    = (inr ddl, reconstruction_queries "public" "audit_log").
Proof.
  eexists.
  apply (table_schema_of_listed_table demo_conn "audit_log" "public" [] []).
  - done.
  - intros p Hp. vm_compute in Hp.
    repeat (apply elem_of_cons in Hp as [-> | Hp]); [done.. | by apply elem_of_nil in Hp].
  - vm_compute. by left.
  - by vm_compute.
Defined.

(** ** [list_table_schemas] and the endpoint on a healthy connection *)

Lemma table_schema_dict_healthy conn schema tables acc tr :
  (∀ n, conn_fault conn n = None) →
  no_native_dump (conn_db conn) →
  (∀ t, t ∈ tables →
        t ∈ sql_list_tables (conn_db conn) schema
        ∧ is_Some (reconstructed_ddl (conn_db conn) schema t)) →
  ∃ m,
    table_schema_dict conn schema tables acc tr
    = (inr m, tr ++ (tables ≫= reconstruction_queries schema))
    ∧ ∀ t, m !! t = if decide (t ∈ tables)
                    then reconstructed_ddl (conn_db conn) schema t
                    else acc !! t.
Proof.
  intros Hfault Hnone. revert acc tr.
  induction tables as [|t0 tables IH]; intros acc tr Htables.
  - exists acc. split; [by rewrite app_nil_r|]. intros t.
    by rewrite decide_False by apply not_elem_of_nil.
  - destruct (Htables t0) as [Hlisted [ddl Hddl]]; [by left|].
    unfold reconstructed_ddl in Hddl.
    destruct (sql_constraints (conn_db conn) schema t0) as [|constraints] eqn:Hcons;
      [done|]. injection Hddl as Hddl.
    destruct (IH (<[t0 := ddl]> acc) (tr ++ reconstruction_queries schema t0))
      as (m & Hrun & Hm).
    { intros t Ht. apply Htables. by right. }
    exists m. split.
    + cbn [table_schema_dict].
      erewrite bind_ok; [|by eapply table_schema_of_listed_table_core].
      rewrite Hddl, Hrun, bind_cons. by rewrite <-app_assoc.
    + intros t. rewrite Hm. destruct (decide (t ∈ tables)) as [Hin|Hnotin].
      * rewrite decide_True; [done | by right].
      * destruct (decide (t = t0)) as [->|Hne].
        -- rewrite decide_True by left. rewrite lookup_insert_eq.
           unfold reconstructed_ddl. by rewrite Hcons, Hddl.
        -- rewrite lookup_insert_ne by done.
           rewrite decide_False; [done|]. by intros [?|?]%elem_of_cons.
Qed.

Lemma list_table_schemas_healthy_core conn schema tr :
  (∀ n, conn_fault conn n = None) →
  no_native_dump (conn_db conn) →
  (∀ t, t ∈ sql_list_tables (conn_db conn) schema →
        is_Some (reconstructed_ddl (conn_db conn) schema t)) →
  ∃ mapping,
    list_table_schemas conn schema tr
    = (inr mapping,
       tr ++ Q_list_tables schema
             :: (sql_list_tables (conn_db conn) schema ≫= reconstruction_queries schema))
    ∧ ∀ t, mapping !! t
           = if decide (t ∈ sql_list_tables (conn_db conn) schema)
             then reconstructed_ddl (conn_db conn) schema t
             else None.
Proof.
  intros Hfault Hnone Hddl.
  destruct (table_schema_dict_healthy conn schema
              (sql_list_tables (conn_db conn) schema) ∅
              (tr ++ [Q_list_tables schema]) Hfault Hnone)
    as (m & Hrun & Hm); [by auto|].
  exists m. split.
  - unfold list_table_schemas, list_tables.
    erewrite bind_ok; [|by erewrite bind_ok; [|by apply execute_ok]].
    rewrite Hrun. by rewrite <-app_assoc.
  - intros t. rewrite Hm. by rewrite lookup_empty.
Qed.

(** X3. When no statement fails in transit, the engine has no native dump
    function and the constraint query is accepted for every base table,
    [list_table_schemas] succeeds: it maps every base table of the schema to
    its reconstructed statement and nothing else, and it has sent the table
    list followed by four statements per table, in the order of the list. *)
Theorem list_table_schemas_healthy conn schema tr :
  (∀ n, conn_fault conn n = None) →
  no_native_dump (conn_db conn) →
  (∀ t, t ∈ sql_list_tables (conn_db conn) schema →
        is_Some (reconstructed_ddl (conn_db conn) schema t)) →
  ∃ mapping,
    list_table_schemas conn schema tr
    = (inr mapping,
       tr ++ Q_list_tables schema
             :: (sql_list_tables (conn_db conn) schema ≫= reconstruction_queries schema))
    ∧ ∀ t, mapping !! t
           = if decide (t ∈ sql_list_tables (conn_db conn) schema)
             then reconstructed_ddl (conn_db conn) schema t
             else None.
Proof. apply list_table_schemas_healthy_core. Qed.

Lemma demo_no_native_dump : no_native_dump demo_db.
Proof.
  intros p Hp. vm_compute in Hp.
  repeat (apply elem_of_cons in Hp as [-> | Hp]); [done.. | by apply elem_of_nil in Hp].
Qed.

Lemma demo_reconstructs_all t :
  t ∈ sql_list_tables demo_db "public" →
  is_Some (reconstructed_ddl demo_db "public" t).
Proof.
  intros Ht. vm_compute in Ht.
  repeat (apply elem_of_cons in Ht as [-> | Ht]); [..| by apply elem_of_nil in Ht];
    eexists; vm_compute; reflexivity.
Qed.

Lemma list_table_schemas_healthy_witness :
  ∃ mapping tr',
    list_table_schemas demo_conn "public" [] = (inr mapping, tr')
    ∧ length tr' = 21%nat
    ∧ mapping !! "ghost" = None
    ∧ is_Some (mapping !! "users").
Proof.
  destruct (list_table_schemas_healthy demo_conn "public" [])
    as (mapping & Hrun & Hm).
  - done.
  - apply demo_no_native_dump.
  - apply demo_reconstructs_all.
  - eexists mapping, _. split; [exact Hrun|]. split; [by vm_compute|].
    rewrite !Hm. split; [by vm_compute | eexists; vm_compute; reflexivity].
Defined.

Lemma execute_fault {A} conn q (answer : string + A) msg tr :
  conn_fault conn (length tr) = Some msg →
  execute conn q answer tr = (inl (DbError msg), tr ++ [q]).
Proof. unfold execute. by intros ->. Qed.

(** The body of the endpoint after the DDL texts, when its three statements
    go through. *)
Lemma table_schemas_body_ok conn schema tr mapping tr1 :
  list_table_schemas conn schema tr = (inr mapping, tr1) →
  (∀ k, (k < 3)%nat → conn_fault conn (length tr1 + k) = None) →
  ∃ snap,
    table_schemas_body conn schema tr = (inr snap, tr1 ++ metadata_queries schema)
    ∧ snap_ddl snap = mapping
    ∧ snap_tables snap = (sorted_items mapping).*1.
Proof.
  intros Hmapping Hfault. eexists. split.
  - unfold table_schemas_body. rewrite (bind_ok _ _ _ _ _ Hmapping).
    erewrite bind_ok.
    2:{ apply execute_ok; [|done].
        rewrite <-(Nat.add_0_r (length tr1)). apply Hfault. lia. }
    erewrite bind_ok.
    2:{ apply execute_ok; [|done]. rewrite length_app. apply Hfault. simpl. lia. }
    erewrite bind_ok.
    2:{ apply execute_ok; [|done]. rewrite !length_app, <-Nat.add_assoc.
        apply Hfault. simpl. lia. }
    unfold ret, metadata_queries. by rewrite <-!app_assoc.
  - simpl. by rewrite dict_of_sorted_items.
Qed.

(** X4. Under the same conditions the endpoint answers 200: the snapshot's
    DDL mapping holds the reconstructed statement of every base table and
    nothing else, and the three metadata statements are sent after all the
    statements of the tables. *)
Theorem api_table_schemas_healthy conn schema tr :
  (∀ n, conn_fault conn n = None) →
  no_native_dump (conn_db conn) →
  (∀ t, t ∈ sql_list_tables (conn_db conn) schema →
        is_Some (reconstructed_ddl (conn_db conn) schema t)) →
  ∃ snap,
    api_table_schemas conn schema tr
    = (Ok200 snap,
       tr ++ Q_list_tables schema
             :: (sql_list_tables (conn_db conn) schema ≫= reconstruction_queries schema)
             ++ metadata_queries schema)
    ∧ ∀ t, snap_ddl snap !! t
           = if decide (t ∈ sql_list_tables (conn_db conn) schema)
             then reconstructed_ddl (conn_db conn) schema t
             else None.
Proof.
  intros Hfault Hnone Hddl.
  destruct (list_table_schemas_healthy_core conn schema tr Hfault Hnone Hddl)
    as (mapping & Hrun & Hm).
  destruct (table_schemas_body_ok _ _ _ _ _ Hrun) as (snap & Hbody & Hsnap & _);
    [by auto|].
  exists snap. split; [|by rewrite Hsnap].
  unfold api_table_schemas. by rewrite Hbody, <-app_assoc.
Qed.

Lemma api_table_schemas_healthy_witness :
  ∃ snap tr',
    api_table_schemas demo_conn "public" [] = (Ok200 snap, tr')
    ∧ snap_ddl snap !! "users" = reconstructed_ddl demo_db "public" "users".
Proof.
  destruct (api_table_schemas_healthy demo_conn "public" [])
    as (snap & Hrun & Hm).
  - done.
  - apply demo_no_native_dump.
  - apply demo_reconstructs_all.
  - eexists snap, _. split; [exact Hrun|]. by rewrite Hm.
Defined.

(** X5. When the DDL texts are built and one of the three metadata
    statements then fails in transit, the endpoint answers 400 with that
    failure's message: the DDL texts are discarded and the statements after
    the failing one are not sent. *)
Theorem metadata_failure_discards_snapshot conn schema tr mapping tr1 k msg :
  list_table_schemas conn schema tr = (inr mapping, tr1) →
  (k < 3)%nat →
  (∀ j, (j < k)%nat → conn_fault conn (length tr1 + j) = None) →
  conn_fault conn (length tr1 + k) = Some msg →
  api_table_schemas conn schema tr
  = (Err400 msg, tr1 ++ take (S k) (metadata_queries schema)).
Proof.
  intros Hmapping Hk Hbefore Hfault.
  unfold api_table_schemas, table_schemas_body.
  rewrite (bind_ok _ _ _ _ _ Hmapping).
  destruct k as [|[|[|k]]]; [| | |lia].
  - rewrite Nat.add_0_r in Hfault.
    by erewrite bind_fail; [|by apply execute_fault].
  - erewrite bind_ok.
    2:{ apply execute_ok; [|done].
        rewrite <-(Nat.add_0_r (length tr1)). apply Hbefore. lia. }
    erewrite bind_fail.
    2:{ apply execute_fault. by rewrite length_app. }
    simpl. by rewrite <-app_assoc.
  - erewrite bind_ok.
    2:{ apply execute_ok; [|done].
        rewrite <-(Nat.add_0_r (length tr1)). apply Hbefore. lia. }
    erewrite bind_ok.
    2:{ apply execute_ok; [|done]. rewrite length_app. apply Hbefore. simpl. lia. }
    erewrite bind_fail.
    2:{ apply execute_fault. by rewrite !length_app, <-Nat.add_assoc. }
    simpl. by rewrite <-!app_assoc.
Qed.

Lemma metadata_failure_discards_snapshot_witness :
  ∃ tr1,
    api_table_schemas metadata_lossy_conn "public" []
    = (Err400 "SSL connection has been closed unexpectedly",
       tr1 ++ [Q_indexes "public"; Q_partitioned_parents "public"])
    ∧ length tr1 = 21%nat.
Proof.
  eexists. split.
  - eapply (metadata_failure_discards_snapshot metadata_lossy_conn "public" [] _ _ 1).
    + vm_compute. reflexivity.
    + lia.
    + intros j Hj. assert (j = 0%nat) as -> by lia. reflexivity.
    + reflexivity.
  - reflexivity.
Defined.

(** ** The native path of [table_schema]: errors and empty results *)

(** X6. When the probe reports support and the call of the native function
    fails, in transit or because the engine rejects it, [table_schema] raises
    that error: it does not fall back to the reconstruction, and sends
    nothing after the failed call. *)
Theorem native_dump_error_is_raised conn table schema tr tr1 msg :
  _redshift_pg_get_tabledef_available conn tr = (inr true, tr1) →
  conn_fault conn (length tr1) = Some msg
  ∨ (conn_fault conn (length tr1) = None
     ∧ pg_get_tabledef (conn_db conn) (schema +:+ "." +:+ table) = inl msg) →
  table_schema conn table schema tr
  = (inl (DbError msg),
     tr ++ [Q_tabledef_count; Q_tabledef (schema +:+ "." +:+ table)]).
Proof.
  intros Hprobe Hfail.
  pose proof (probe_inr _ _ _ _ Hprobe) as [_ Htr1].
  unfold table_schema, native_tabledef.
  rewrite (bind_fail _ _ _ (DbError msg)
             (tr ++ [Q_tabledef_count; Q_tabledef (schema +:+ "." +:+ table)])); [done|].
  rewrite (bind_ok _ _ _ _ _ Hprobe). cbv zeta.
  apply bind_fail.
  replace (tr ++ [Q_tabledef_count; Q_tabledef (schema +:+ "." +:+ table)])
    with (tr1 ++ [Q_tabledef (schema +:+ "." +:+ table)])
    by (by rewrite Htr1, <-app_assoc).
  destruct Hfail as [Hfault | [Hfault Hdump]].
  - by apply execute_fault.
  - unfold execute. rewrite Hfault. unfold sql_tabledef. by rewrite Hdump.
Qed.

Lemma native_dump_error_is_raised_witness :
  table_schema broken_native_conn "users" "public" []
  = (inl (DbError "permission denied for function pg_get_tabledef"),
     [Q_tabledef_count; Q_tabledef "public.users"]).
Proof.
  apply (native_dump_error_is_raised broken_native_conn "users" "public" []
           [Q_tabledef_count]); [reflexivity|].
  right. split; reflexivity.
Defined.

(** X7. When the probe reports support and the native function returns NULL
    or the empty text, [table_schema] goes on as if the engine had no such
    function: its result is that of the reconstruction, started after the
    two statements already sent, so a table that is not a base table is
    reported as missing. *)
Theorem empty_native_dump_falls_back conn table schema tr tr1 text :
  _redshift_pg_get_tabledef_available conn tr = (inr true, tr1) →
  conn_fault conn (length tr1) = None →
  pg_get_tabledef (conn_db conn) (schema +:+ "." +:+ table) = inr text →
  text = None ∨ text = Some EmptyString →
  table_schema conn table schema tr
  = reconstruct conn table schema
      (tr ++ [Q_tabledef_count; Q_tabledef (schema +:+ "." +:+ table)]).
Proof.
  intros Hprobe Hfault Hdump Hempty.
  pose proof (probe_inr _ _ _ _ Hprobe) as [_ Htr1].
  unfold table_schema.
  rewrite (bind_ok _ _ _ None
             (tr ++ [Q_tabledef_count; Q_tabledef (schema +:+ "." +:+ table)])); [done|].
  unfold native_tabledef. rewrite (bind_ok _ _ _ _ _ Hprobe). cbv zeta.
  erewrite bind_ok.
  2:{ apply execute_ok; [done|]. unfold sql_tabledef. by rewrite Hdump. }
  subst tr1. unfold ret. rewrite <-app_assoc. simpl.
  by destruct Hempty as [-> | ->].
Qed.

Lemma empty_native_dump_falls_back_witness :
  table_schema redshift_conn "ghost" "public" []
  = (inl (ValueError "Table public.ghost does not exist."),
     [Q_tabledef_count; Q_tabledef "public.ghost"; Q_table_exists "public" "ghost"]).
Proof.
  rewrite (empty_native_dump_falls_back redshift_conn "ghost" "public" []
             [Q_tabledef_count] None); [by vm_compute | reflexivity.. | by left].
Defined.

(** ** The columns of the reconstructed statement *)

Global Instance by_attnum_total : Total by_attnum.
Proof. intros r1 r2. unfold by_attnum. lia. Qed.

Global Instance by_attnum_trans : Transitive by_attnum.
Proof. intros r1 r2 r3. unfold by_attnum. lia. Qed.

Lemma sql_columns_elem db schema table c :
  c ∈ sql_columns db schema table ↔
  ∃ a ad,
    live_column db schema table a
    ∧ ad ∈ left_join (filter (λ ad, adrelid ad = attrelid a ∧ adnum ad = attnum a)
                             (pg_attrdef db))
    ∧ c = column_of a ad.
Proof.
  unfold sql_columns, live_column. rewrite order_by_perm.
  repeat setoid_rewrite list_elem_of_bind.
  repeat setoid_rewrite list_elem_of_filter.
  split.
  - intros (a & (cl & (n & (ad & Hrow & Had) & Hn & ?) & Hc & ?) & ?).
    destruct (decide _) as [(? & ? & ? & ? & ?)|]; [|by apply elem_of_nil in Hrow].
    apply list_elem_of_singleton in Hrow as ->.
    exists a, ad. split_and!; [done..| |done|done].
    exists cl, n. done.
  - intros (a & ad & (? & ? & ? & cl & n & ? & ? & ? & ? & ? & ? & ?) & Had & ->).
    exists a. split; [|done]. exists cl. split; [|done]. exists n. split; [|done].
    exists ad. split; [|done].
    rewrite decide_True by done. by apply list_elem_of_singleton.
Qed.

(** X8. On the reconstruction path the column lines come first, in the
    order of the column query, which is ascending in the ordinal position.
    The columns are those of the live attributes of the table: attributes
    with a positive number that are not dropped, of a table or partitioned
    table with that name in that schema; system columns and dropped columns
    never appear. *)
Theorem reconstructed_columns_are_live_and_ordered conn table schema tr tr1 ddl tr' :
  native_tabledef conn table schema tr = (inr None, tr1) →
  table_schema conn table schema tr = (inr ddl, tr') →
  ∃ constraints,
    ddl = create_stmt schema table
            ((col_line <$> sql_columns (conn_db conn) schema table)
             ++ (constraint_line <$> constraints))
    ∧ StronglySorted by_attnum (sql_columns (conn_db conn) schema table)
    ∧ (∀ c, c ∈ sql_columns (conn_db conn) schema table →
            0 < col_attnum c
            ∧ ∃ a, live_column (conn_db conn) schema table a
                   ∧ col_attnum c = attnum a ∧ col_name c = attname a
                   ∧ col_dtype c = att_format_type a)
    ∧ (∀ a, live_column (conn_db conn) schema table a →
            ∃ c, c ∈ sql_columns (conn_db conn) schema table
                 ∧ col_attnum c = attnum a ∧ col_name c = attname a).
Proof.
  intros Hnative Hddl. unfold table_schema in Hddl.
  rewrite (bind_ok _ _ _ _ _ Hnative) in Hddl.
  apply reconstruct_inr in Hddl as (constraints & _ & -> & _).
  exists constraints. split_and!; [done| | |].
  - apply order_by_sorted; apply _.
  - intros c (a & ad & Hlive & _ & ->)%sql_columns_elem. simpl.
    split; [apply Hlive|]. by exists a.
  - intros a Hlive.
    destruct (left_join (filter (λ ad, adrelid ad = attrelid a ∧ adnum ad = attnum a)
                                (pg_attrdef (conn_db conn)))) as [|ad ads] eqn:Hjoin.
    { unfold left_join in Hjoin. by destruct (filter _ _). }
    exists (column_of a ad). split; [|done].
    apply sql_columns_elem. exists a, ad. rewrite Hjoin. split_and!; [done| |done].
    by left.
Qed.

Lemma reconstructed_columns_are_live_and_ordered_witness :
  StronglySorted by_attnum (sql_columns demo_db "public" "users")
  ∧ col_name <$> sql_columns demo_db "public" "users"
    = ["id"; "name"; "age"; "email"; "created_at"].
Proof.
  destruct (reconstructed_columns_are_live_and_ordered demo_conn "users" "public" []
              [Q_tabledef_count]
              (default EmptyString (reconstructed_ddl demo_db "public" "users"))
              (reconstruction_queries "public" "users") eq_refl)
    as (constraints & _ & Hsorted & _).
  - by vm_compute.
  - split; [done | by vm_compute].
Defined.

(** ** The key sets of a snapshot *)

(** X9. In a snapshot the list of tables is strictly ascending (sorted, no
    duplicates), and the three mappings have exactly these tables as their
    keys: an index or a partition link of a relation that is not among them
    adds no key. *)
Theorem snapshot_mappings_share_keys conn schema tr snap tr' :
  api_table_schemas conn schema tr = (Ok200 snap, tr') →
  StronglySorted String.le (snap_tables snap)
  ∧ NoDup (snap_tables snap)
  ∧ ∀ t, (t ∈ snap_tables snap ↔ is_Some (snap_ddl snap !! t))
         ∧ (t ∈ snap_tables snap ↔ is_Some (snap_indexes snap !! t))
         ∧ (t ∈ snap_tables snap ↔ is_Some (snap_partitions snap !! t)).
Proof.
  intros (m & tr1 & _ & _ & _ & Hnames & Hddl & Hix & Hparts)%api_table_schemas_ok%table_schemas_body_inr.
  rewrite Hnames, Hddl, Hix, Hparts. split_and!.
  - apply (StronglySorted_fmap _ by_key); [done|].
    apply StronglySorted_merge_sort; apply _.
  - rewrite sorted_items_perm. apply NoDup_fst_map_to_list.
  - intros t. split_and!.
    + apply sorted_items_keys.
    + rewrite fill_indexes_lookup, dict_of_items_const.
      destruct (decide (t ∈ (sorted_items m).*1)) as [Hin|Hnotin]; simpl.
      * split; [intros _; by eexists | done].
      * split; [done | by intros [? [=]]].
    + rewrite fill_children_lookup, fill_parents_lookup, dict_of_items_const.
      destruct (decide (t ∈ (sorted_items m).*1)) as [Hin|Hnotin]; simpl.
      * split; [intros _; by eexists | done].
      * split; [done | by intros [? [=]]].
Qed.

Lemma snapshot_mappings_share_keys_witness :
  snap_tables demo_snapshot
  = ["audit_log"; "measurements"; "measurements_y2024"; "measurements_y2025"; "users"]
  ∧ NoDup (snap_tables demo_snapshot)
  ∧ snap_indexes demo_snapshot !! "pg_class" = None.
Proof.
  destruct (snapshot_mappings_share_keys demo_conn "public" [] demo_snapshot demo_trace
              demo_snapshot_ok) as (_ & Hnodup & Hkeys).
  split; [by vm_compute|]. split; [done|].
  destruct (Hkeys "pg_class") as (_ & Hix & _).
  apply eq_None_not_Some. intros Hin%Hix. vm_compute in Hin.
  repeat (apply elem_of_cons in Hin as [Hin | Hin]; [discriminate Hin|]).
  by apply elem_of_nil in Hin.
Defined.

(** ** The parent keys of a partition entry *)

(** The parent keys after the first loop: those of the last row for [t]. *)
Lemma declare_parent_last t info rows :
  as_parent (foldl (declare_parent t) info rows)
  = match last (filter (λ r : ParentRow, r.1.1 = t) rows) with
    | Some r => Some {| pp_strategy := r.1.2; pp_key_columns := r.2;
                        pp_children := [] |}
    | None => as_parent info
    end.
Proof.
  induction rows as [|row rows IH] using rev_ind; [done|].
  rewrite foldl_snoc, filter_app, filter_cons, filter_nil.
  unfold declare_parent at 1. destruct (decide (row.1.1 = t)) as [Ht|Ht].
  - by rewrite last_snoc.
  - by rewrite app_nil_r.
Qed.

Lemma snapshot_parent_keys conn schema tr snap tr' t declared :
  api_table_schemas conn schema tr = (Ok200 snap, tr') →
  t ∈ snap_tables snap →
  as_parent (foldl (declare_parent t) empty_part_info
               (sql_partitioned_parents (conn_db conn) schema)) = declared →
  ∃ info,
    snap_partitions snap !! t = Some info
    ∧ as_parent info
      = match children_of t (sql_inherits (conn_db conn) schema) with
        | [] => declared
        | c :: cs =>
            Some {| pp_strategy := from_option pp_strategy None declared;
                    pp_key_columns := from_option pp_key_columns [] declared;
                    pp_children := from_option pp_children [] declared ++ c :: cs |}
        end.
Proof.
  intros Hok Ht Hdeclared.
  eexists. split; [by eapply snapshot_partition_entry|].
  rewrite link_as_parent. unfold open_parent. rewrite Hdeclared.
  destruct (children_of t (sql_inherits (conn_db conn) schema)); by destruct declared.
Qed.

(** X10. A table of the snapshot that the first query declares as
    partitioned, by one row, has the parent keys with the strategy and the
    key columns of that row; the links leave them as they are, and its
    children are exactly the children of its links, in the order of the
    query (none, when it has no partition yet). *)
Theorem declared_parent_keeps_its_declaration conn schema tr snap tr' t strategy key_columns :
  api_table_schemas conn schema tr = (Ok200 snap, tr') →
  t ∈ snap_tables snap →
  (t, strategy, key_columns) ∈ sql_partitioned_parents (conn_db conn) schema →
  (∀ r : ParentRow, r ∈ sql_partitioned_parents (conn_db conn) schema →
                    r.1.1 = t → r = (t, strategy, key_columns)) →
  ∃ info,
    snap_partitions snap !! t = Some info
    ∧ as_parent info
      = Some {| pp_strategy := strategy;
                pp_key_columns := key_columns;
                pp_children := children_of t (sql_inherits (conn_db conn) schema) |}.
Proof.
  intros Hok Ht Hrow Honly.
  destruct (snapshot_parent_keys conn schema tr snap tr' t
              (Some {| pp_strategy := strategy; pp_key_columns := key_columns;
                       pp_children := [] |}) Hok Ht) as (info & Hinfo & Hparent).
  - rewrite declare_parent_last.
    destruct (last _) as [r|] eqn:Hlast.
    + apply last_Some in Hlast as [l' Hl'].
      assert (r ∈ filter (λ r : ParentRow, r.1.1 = t)
                         (sql_partitioned_parents (conn_db conn) schema)) as Hin.
      { rewrite Hl'. apply elem_of_app. right. by left. }
      apply list_elem_of_filter in Hin as [Hname Hin].
      by rewrite (Honly r Hin Hname).
    + apply last_None in Hlast.
      assert ((t, strategy, key_columns)
              ∈ filter (λ r : ParentRow, r.1.1 = t)
                       (sql_partitioned_parents (conn_db conn) schema)) as Hin
        by by apply list_elem_of_filter.
      rewrite Hlast in Hin. by apply elem_of_nil in Hin.
  - exists info. split; [done|]. rewrite Hparent. simpl.
    by destruct (children_of t (sql_inherits (conn_db conn) schema)).
Qed.

Lemma declared_parent_keeps_its_declaration_witness :
  ∃ info,
    snap_partitions demo_snapshot !! "measurements" = Some info
    ∧ as_parent info
      = Some {| pp_strategy := Some "RANGE";
                pp_key_columns := ["city_id"; "logdate"];
                pp_children := children_of "measurements" (sql_inherits demo_db "public") |}.
Proof.
  apply (declared_parent_keeps_its_declaration demo_conn "public" [] demo_snapshot
           demo_trace "measurements" (Some "RANGE") ["city_id"; "logdate"]
           demo_snapshot_ok).
  - vm_compute. by right; left.
  - vm_compute. by left.
  - intros r Hr _. vm_compute in Hr.
    repeat (apply elem_of_cons in Hr as [-> | Hr]); [done | by apply elem_of_nil in Hr].
Defined.

(** X11. A table of the snapshot that the first query does not declare but
    that some link names as the parent (plain inheritance) still has the
    parent keys: strategy [None], no key columns, and the children of its
    links, each with the text [''] when the child has no bound. *)
Theorem undeclared_parent_is_synthesised conn schema tr snap tr' t child bounds :
  api_table_schemas conn schema tr = (Ok200 snap, tr') →
  t ∈ snap_tables snap →
  (∀ r : ParentRow, r ∈ sql_partitioned_parents (conn_db conn) schema → r.1.1 ≠ t) →
  (t, child, bounds) ∈ sql_inherits (conn_db conn) schema →
  ∃ info,
    snap_partitions snap !! t = Some info
    ∧ as_parent info
      = Some {| pp_strategy := None;
                pp_key_columns := [];
                pp_children := children_of t (sql_inherits (conn_db conn) schema) |}
    ∧ {| ch_name := child; ch_bounds := default EmptyString bounds |}
      ∈ children_of t (sql_inherits (conn_db conn) schema).
Proof.
  intros Hok Ht Hundeclared Hlink.
  assert (Hchild : {| ch_name := child; ch_bounds := default EmptyString bounds |}
                   ∈ children_of t (sql_inherits (conn_db conn) schema)).
  { unfold children_of. apply list_elem_of_fmap. exists (t, child, bounds).
    split; [done|]. by apply list_elem_of_filter. }
  destruct (snapshot_parent_keys conn schema tr snap tr' t None Hok Ht)
    as (info & Hinfo & Hparent).
  - by rewrite declare_parent_untouched.
  - exists info. split; [done|]. split; [|done]. rewrite Hparent.
    destruct (children_of t (sql_inherits (conn_db conn) schema));
      [by apply elem_of_nil in Hchild | done].
Qed.

Lemma inherit_snapshot_ok :
  api_table_schemas inherit_conn "public" [] = (Ok200 inherit_snapshot, inherit_trace).
Proof. by vm_compute. Qed.

Lemma undeclared_parent_is_synthesised_witness :
  ∃ info,
    snap_partitions inherit_snapshot !! "cities" = Some info
    ∧ as_parent info
      = Some {| pp_strategy := None; pp_key_columns := [];
                pp_children := [{| ch_name := "capitals"; ch_bounds := EmptyString |}] |}.
Proof.
  destruct (undeclared_parent_is_synthesised inherit_conn "public" [] inherit_snapshot
              inherit_trace "cities" "capitals" None inherit_snapshot_ok)
    as (info & Hinfo & Hparent & _).
  - vm_compute. by right; left.
  - intros r Hr. vm_compute in Hr. by apply elem_of_nil in Hr.
  - vm_compute. by left.
  - exists info. split; [done|]. rewrite Hparent. by vm_compute.
Defined.

(** ** The cells of [/api/sql] *)

Section api_sql_facts.
Context {Value : Type} (str : Value → unicode).

Lemma clip_is_bounded_and_idempotent_core (v : option Value) :
  (length (clip str v) ≤ 2001)%nat
  ∧ take 2000 (clip str v) = take 2000 (cell_text str v)
  ∧ ((length (cell_text str v) ≤ 2000)%nat → clip str v = cell_text str v)
  ∧ ((2000 < length (cell_text str v))%nat →
       length (clip str v) = 2001%nat ∧ last (clip str v) = Some ellipsis)
  ∧ (∀ w, str w = clip str v → clip str (Some w) = clip str v).
Proof.
  unfold clip. set (s := cell_text str v).
  destruct (decide (length s ≤ 2000)%nat) as [Hshort|Hlong].
  - split_and!; [lia | done | done | lia |].
    intros w Hw. simpl. rewrite Hw. by rewrite decide_True.
  - assert (Hlen : length (take 2000 s ++ [ellipsis]) = 2001%nat).
    { rewrite length_app, length_take.
      change (length [ellipsis]) with 1%nat. lia. }
    split_and!; [lia | | lia | |].
    + rewrite take_app_le by (rewrite length_take; lia).
      by rewrite take_take, Nat.min_id.
    + intros _. split; [done | apply last_snoc].
    + intros w Hw. simpl. rewrite Hw.
      rewrite decide_False by lia.
      rewrite take_app_le by (rewrite length_take; lia).
      by rewrite take_take, Nat.min_id.
Qed.

(** X12. A clipped cell has at most 2001 code points and starts like the
    text of the cell: a text of at most 2000 code points is returned as it
    is, a longer one keeps its first 2000 code points and ends with the
    ellipsis.  Clipping is idempotent: a cell whose text is already a
    clipped text is returned unchanged. *)
Theorem clip_is_bounded_and_idempotent (v : option Value) :
  (length (clip str v) ≤ 2001)%nat
  ∧ take 2000 (clip str v) = take 2000 (cell_text str v)
  ∧ ((length (cell_text str v) ≤ 2000)%nat → clip str v = cell_text str v)
  ∧ ((2000 < length (cell_text str v))%nat →
       length (clip str v) = 2001%nat ∧ last (clip str v) = Some ellipsis)
  ∧ (∀ w, str w = clip str v → clip str (Some w) = clip str v).
Proof. apply clip_is_bounded_and_idempotent_core. Qed.

(** X13. The rows of the response of [/api/sql] have the shape of the rows
    of the result, and every cell has at most 2001 code points. *)
Theorem clip_rows_bounded (rows : list (list (option Value))) :
  length (clip_rows str rows) = length rows
  ∧ Forall2 (λ clipped row, length clipped = length row) (clip_rows str rows) rows
  ∧ Forall (Forall (λ cell : unicode, (length cell ≤ 2001)%nat)) (clip_rows str rows).
Proof.
  unfold clip_rows. split_and!.
  - apply length_fmap.
  - induction rows as [|r rows IH]; constructor; [apply length_fmap | done].
  - apply Forall_fmap, Forall_forall. intros r _.
    apply Forall_fmap, Forall_forall. intros v _.
    apply clip_is_bounded_and_idempotent_core.
Qed.

End api_sql_facts.

Example clip_long_text :
  clip (λ s : unicode, s) (Some (replicate 2500 97%N))
  = replicate 2000 97%N ++ [ellipsis].
Proof. by vm_compute. Qed.

(** ** The headers of the Lambda response *)

Lemma join_snoc sep (parts : list string) (part : string) :
  parts ≠ [] → join sep (parts ++ [part]) = join sep parts +:+ sep +:+ part.
Proof.
  unfold join. induction parts as [|p [|q parts] IH]; [done| |]; intros _.
  - done.
  - change (String.concat sep ((p :: q :: parts) ++ [part]))
      with (p +:+ sep +:+ String.concat sep ((q :: parts) ++ [part])).
    rewrite IH by done.
    change (String.concat sep (p :: q :: parts))
      with (p +:+ sep +:+ String.concat sep (q :: parts)).
    by rewrite !append_assoc.
Qed.

Section lambda_headers_facts.
Context (lower : string → string).

Lemma header_values_snoc k hs kv :
  header_values k (hs ++ [kv])
  = header_values k hs ++ (if decide (kv.1 = k) then [kv.2] else []).
Proof.
  unfold header_values. rewrite filter_app, fmap_app. f_equal.
  rewrite filter_cons, filter_nil. by destruct (decide (kv.1 = k)).
Qed.

Lemma merge_header_lookup (m : gmap string string) k' v' k :
  merge_header lower m (k', v') !! k
  = if decide (lower k' = "set-cookie") then m !! k
    else if decide (k' = k)
         then Some (match m !! k with
                    | Some merged => merged +:+ "," +:+ v'
                    | None => v'
                    end)
         else m !! k.
Proof.
  unfold merge_header.
  destruct (decide (lower k' = "set-cookie")); [done|].
  destruct (decide (k' = k)) as [->|Hne].
  - destruct (m !! k); by rewrite lookup_insert_eq.
  - destruct (m !! k'); by rewrite lookup_insert_ne.
Qed.

Lemma headers_out_merges_duplicates_core (response_headers : list (string * string))
    (k : string) :
  headers_out lower response_headers !! k
  = if decide (lower k = "set-cookie") then None
    else match header_values k response_headers with
         | [] => None
         | v :: vs => Some (join "," (v :: vs))
         end.
Proof.
  unfold headers_out.
  induction response_headers as [|[k' v'] hs IH] using rev_ind.
  - cbn [foldl]. rewrite lookup_empty. by destruct (decide _).
  - rewrite foldl_snoc, merge_header_lookup, IH, header_values_snoc.
    cbn [fst snd].
    destruct (decide (lower k' = "set-cookie")) as [Hcookie|Hplain].
    + destruct (decide (k' = k)) as [->|Hne].
      * by rewrite !decide_True by done.
      * by rewrite app_nil_r.
    + destruct (decide (k' = k)) as [->|Hne]; [|by rewrite app_nil_r].
      rewrite !decide_False by done.
      destruct (header_values k hs) as [|v vs] eqn:Hvs; [reflexivity|].
      rewrite <-(join_snoc "," (v :: vs) v') by done.
      by rewrite <-app_comm_cons.
Qed.

(** X14. [headers_out] has no key that lower-cases to [set-cookie]; any
    other name that occurs in the response headers is a key, and its value
    is the values of that exact name joined with commas, in the order of the
    response; a name that does not occur is not a key.  Names that differ
    only in case are kept apart. *)
Theorem headers_out_merges_duplicates (response_headers : list (string * string))
    (k : string) :
  headers_out lower response_headers !! k
  = if decide (lower k = "set-cookie") then None
    else match header_values k response_headers with
         | [] => None
         | v :: vs => Some (join "," (v :: vs))
         end.
Proof. apply headers_out_merges_duplicates_core. Qed.

(** X15. [cookies_out] holds the values of the headers whose name
    lower-cases to [set-cookie], one entry per header and in the order of
    the response, and none of them reaches [headers_out]: every response
    header goes to exactly one of the two. *)
Theorem cookies_are_kept_apart (response_headers : list (string * string)) :
  length (cookies_out lower response_headers)
  = length (filter (λ kv, lower kv.1 = "set-cookie") response_headers)
  ∧ (∀ k v, (k, v) ∈ response_headers →
       (lower k = "set-cookie"
        ∧ v ∈ cookies_out lower response_headers
        ∧ headers_out lower response_headers !! k = None)
       ∨ (lower k ≠ "set-cookie"
          ∧ v ∈ header_values k response_headers
          ∧ headers_out lower response_headers !! k
            = Some (join "," (header_values k response_headers))))
  ∧ (∀ v, v ∈ cookies_out lower response_headers →
          ∃ k, (k, v) ∈ response_headers ∧ lower k = "set-cookie").
Proof.
  split_and!.
  - unfold cookies_out. apply length_fmap.
  - intros k v Hin. rewrite headers_out_merges_duplicates_core.
    destruct (decide (lower k = "set-cookie")) as [Hcookie|Hplain].
    + left. split_and!; [done| |done].
      unfold cookies_out. apply list_elem_of_fmap. exists (k, v).
      split; [done|]. by apply list_elem_of_filter.
    + right. assert (Hv : v ∈ header_values k response_headers).
      { unfold header_values. apply list_elem_of_fmap. exists (k, v).
        split; [done|]. by apply list_elem_of_filter. }
      split_and!; [done..|].
      destruct (header_values k response_headers); [by apply elem_of_nil in Hv | done].
  - intros v ([k v'] & -> & [Hk Hin]%list_elem_of_filter)%list_elem_of_fmap.
    by exists k.
Qed.

(** X16. [_first_header] looks the name up without regard to case, in the
    name asked for as in the keys: two names with the same lower case give
    the same answer; when some key matches, the answer is the value of the
    first matching key; when none does, it is the default. *)
Theorem first_header_ignores_case {V} (headers : list (string * V))
    (name : string) (default : V) :
  (∀ name', lower name' = lower name →
            _first_header lower headers name' default
            = _first_header lower headers name default)
  ∧ (∀ before k v after,
       headers = before ++ (k, v) :: after →
       lower k = lower name →
       (∀ kv, kv ∈ before → lower kv.1 ≠ lower name) →
       _first_header lower headers name default = v)
  ∧ ((∀ kv, kv ∈ headers → lower kv.1 ≠ lower name) →
     _first_header lower headers name default = default).
Proof.
  split_and!.
  - intros name' Hname. induction headers as [|[k v] rest IH]; [done|].
    simpl. rewrite Hname. by rewrite IH.
  - intros before k v after -> Hk Hbefore.
    induction before as [|[k0 v0] before IH]; simpl.
    + by rewrite decide_True.
    + rewrite decide_False by (apply (Hbefore (k0, v0)); left).
      apply IH. intros kv Hkv. apply Hbefore. by right.
  - induction headers as [|[k v] rest IH]; [done|]. intros Hnone. simpl.
    rewrite decide_False by (apply (Hnone (k, v)); left).
    apply IH. intros kv Hkv. apply Hnone. by right.
Qed.

End lambda_headers_facts.

Lemma headers_out_merges_duplicates_witness :
  headers_out lower_ascii
    [("Vary", "Accept"); ("Set-Cookie", "a=1"); ("vary", "Origin");
     ("Vary", "Cookie"); ("set-cookie", "b=2")] !! "Vary"
  = Some "Accept,Cookie".
Proof.
  rewrite (headers_out_merges_duplicates lower_ascii). reflexivity.
Defined.

Lemma cookies_are_kept_apart_witness :
  "b=2" ∈ cookies_out lower_ascii
            [("Vary", "Accept"); ("Set-Cookie", "a=1"); ("set-cookie", "b=2")]
  ∧ headers_out lower_ascii
      [("Vary", "Accept"); ("Set-Cookie", "a=1"); ("set-cookie", "b=2")]
      !! "set-cookie" = None.
Proof.
  destruct (proj1 (proj2 (cookies_are_kept_apart lower_ascii
              [("Vary", "Accept"); ("Set-Cookie", "a=1"); ("set-cookie", "b=2")]))
              "set-cookie" "b=2") as [(_ & Hcookie & Hout) | (Hplain & _)].
  - by do 2 right; left.
  - done.
  - by vm_compute in Hplain.
Defined.

Lemma first_header_ignores_case_witness :
  _first_header lower_ascii
    [("Host", "example.org"); ("X-Forwarded-Proto", "http")]
    "x-forwarded-proto" "https" = "http".
Proof.
  apply (proj1 (proj2 (first_header_ignores_case lower_ascii
           [("Host", "example.org"); ("X-Forwarded-Proto", "http")]
           "x-forwarded-proto" "https"))
           [("Host", "example.org")] "X-Forwarded-Proto" "http" []).
  - reflexivity.
  - reflexivity.
  - intros kv Hkv. apply list_elem_of_singleton in Hkv as ->. by vm_compute.
Defined.

(** ** Connections and databases *)

Lemma set_sessions_id srv : set_sessions (srv_sessions srv) srv = srv.
Proof. by destruct srv. Qed.

Lemma connect_ok dbname srv :
  srv_refusal srv = None →
  dbname ∈ database_names srv →
  psycopg2_connect dbname srv
  = (inr {| h_dbname := dbname; h_closed := false |},
     set_sessions (S (srv_sessions srv)) srv).
Proof. unfold psycopg2_connect. intros -> Hin. by rewrite decide_True. Qed.

Lemma connect_missing dbname srv :
  srv_refusal srv = None →
  dbname ∉ database_names srv →
  psycopg2_connect dbname srv = (inl (OperationalError (srv_missing srv dbname)), srv).
Proof. unfold psycopg2_connect. intros -> Hin. by rewrite decide_False. Qed.

Lemma connect_refused dbname srv msg :
  srv_refusal srv = Some msg →
  psycopg2_connect dbname srv = (inl (OperationalError msg), srv).
Proof. unfold psycopg2_connect. by intros ->. Qed.

Lemma connect_inr dbname srv h srv' :
  psycopg2_connect dbname srv = (inr h, srv') →
  h = {| h_dbname := dbname; h_closed := false |}
  ∧ dbname ∈ database_names srv
  ∧ srv' = set_sessions (S (srv_sessions srv)) srv.
Proof.
  unfold psycopg2_connect. destruct (srv_refusal srv); [done|].
  destruct (decide _); [|done]. by intros [= <- <-].
Qed.

Lemma connect_inl dbname srv e srv' :
  psycopg2_connect dbname srv = (inl e, srv') → srv' = srv.
Proof.
  unfold psycopg2_connect. destruct (srv_refusal srv); [by intros [= _ <-]|].
  destruct (decide _); [done | by intros [= _ <-]].
Qed.

(** Opening a connection and closing it leaves the server as it was. *)
Lemma close_open_handle d srv :
  handle_close {| h_dbname := d; h_closed := false |}
    (set_sessions (S (srv_sessions srv)) srv) = srv.
Proof. unfold handle_close. simpl. by destruct srv. Qed.

Lemma sql_list_databases_elem srv d :
  d ∈ sql_list_databases srv ↔
  ∃ r, r ∈ srv_databases srv ∧ datname r = d ∧ datistemplate r = false.
Proof.
  unfold sql_list_databases. rewrite order_by_perm, list_elem_of_fmap. split.
  - intros (r & -> & [? ?]%list_elem_of_filter). eauto.
  - intros (r & ? & <- & ?). exists r. by rewrite list_elem_of_filter.
Qed.

Lemma list_databases_sorted_and_closed_core self srv :
  (list_databases self srv).2 = srv
  ∧ (srv_refusal srv = None → admin_dbname self ∈ database_names srv →
     (list_databases self srv).1 = inr (sql_list_databases srv)
     ∧ StronglySorted String.le (sql_list_databases srv)
     ∧ ∀ d, d ∈ sql_list_databases srv ↔
            ∃ r, r ∈ srv_databases srv ∧ datname r = d ∧ datistemplate r = false)
  ∧ (∀ msg, srv_refusal srv = Some msg →
            (list_databases self srv).1 = inl (OperationalError msg))
  ∧ (srv_refusal srv = None → admin_dbname self ∉ database_names srv →
     (list_databases self srv).1
     = inl (OperationalError (srv_missing srv (admin_dbname self)))).
Proof.
  unfold list_databases, db_bind, _connect, db_finally. split_and!.
  - destruct (psycopg2_connect (admin_dbname self) srv) as [[e|h] srv'] eqn:Hconn.
    + by apply connect_inl in Hconn.
    + apply connect_inr in Hconn as (-> & _ & ->). apply close_open_handle.
  - intros Hup Hadmin. rewrite (connect_ok _ _ Hup Hadmin). simpl.
    split_and!; [done | apply order_by_sorted; apply _ | apply sql_list_databases_elem].
  - intros msg Hdown. by rewrite (connect_refused _ _ _ Hdown).
  - intros Hup Hadmin. by rewrite (connect_missing _ _ Hup Hadmin).
Qed.

(** X17. [list_databases] leaves the server as it found it, whether it
    succeeds or not: the admin connection it opens is closed again.  When
    the server accepts connections and the admin database exists, it returns
    the names of the databases that are not templates, in ascending order;
    otherwise it raises the refusal. *)
Theorem list_databases_sorted_and_closed self srv :
  (list_databases self srv).2 = srv
  ∧ (srv_refusal srv = None → admin_dbname self ∈ database_names srv →
     (list_databases self srv).1 = inr (sql_list_databases srv)
     ∧ StronglySorted String.le (sql_list_databases srv)
     ∧ ∀ d, d ∈ sql_list_databases srv ↔
            ∃ r, r ∈ srv_databases srv ∧ datname r = d ∧ datistemplate r = false)
  ∧ (∀ msg, srv_refusal srv = Some msg →
            (list_databases self srv).1 = inl (OperationalError msg))
  ∧ (srv_refusal srv = None → admin_dbname self ∉ database_names srv →
     (list_databases self srv).1
     = inl (OperationalError (srv_missing srv (admin_dbname self)))).
Proof. apply list_databases_sorted_and_closed_core. Qed.

Lemma list_databases_sorted_and_closed_witness :
  list_databases demo_object demo_server = (inr ["my_app_db"; "postgres"], demo_server).
Proof.
  destruct (list_databases_sorted_and_closed demo_object demo_server)
    as (Hsrv & Hnames & _).
  destruct Hnames as (Hresult & _); [reflexivity | by vm_compute; do 2 right; left |].
  destruct (list_databases demo_object demo_server) as [r srv'].
  simpl in *. by rewrite Hsrv, Hresult.
Defined.























